(** * The message size filter

    A shallow embedding of [src/core/lib/channel/message_size_filter.c]:
    the channel element constructor, the call element constructor, the
    stream-op interceptor and the receive callback, with the properties
    of the filter stated over them.

    C [int] values are integers of [Z]; a negative limit is the source's
    encoding of "no limit".  Pointers that may be [NULL] are options.
    What the functions do to the outside world (ops passed down the
    stack, closures scheduled on the exec ctx) is recorded as a list of
    events, in program order. *)

From stdpp Require Import base strings gmap list pretty.
From Stdlib Require Import ZArith Lia.

Local Open Scope Z_scope.

(** ** Machine integers *)

Definition INT_MAX : Z := 2147483647.
Definition INT_MIN : Z := -2147483648.

(** The values an [int] can hold. *)
Definition int_range (z : Z) : Prop := INT_MIN <= z <= INT_MAX.

(** The cast [(size_t)z] of an [int]: reduction modulo the word size, here
    of 64 bits.  Both checks cast a limit only after finding it not
    negative, where the cast is the identity at any word size. *)
Definition size_t_of_int (z : Z) : Z := z mod 2 ^ 64.

(** ** Limits *)

(** [#define DEFAULT_MAX_SEND_MESSAGE_LENGTH -1  // Unlimited.] *)
Definition DEFAULT_MAX_SEND_MESSAGE_LENGTH : Z := -1.
(** [#define DEFAULT_MAX_RECV_MESSAGE_LENGTH (4 * 1024 * 1024)] *)
Definition DEFAULT_MAX_RECV_MESSAGE_LENGTH : Z := 4 * 1024 * 1024.

(** [struct message_size_limits] *)
Record message_size_limits := Build_message_size_limits {
  limits_max_send_size : Z;
  limits_max_recv_size : Z
}.

(** Modelled from the spec: [grpc_method_config] and its two getters are
    declared in [src/core/ext/client_channel/method_config.h], which is not
    among the sources.  The spec gives a method's entry as
    [{max_request_bytes: integer|absent, max_response_bytes: integer|absent}];
    each getter returns a pointer to the [int32_t], or [NULL]. *)
Record grpc_method_config := Build_grpc_method_config {
  grpc_method_config_get_max_request_message_bytes : option Z;
  grpc_method_config_get_max_response_message_bytes : option Z
}.

(** [method_config_convert_value] *)
Definition method_config_convert_value (method_config : grpc_method_config)
  : message_size_limits :=
  {| limits_max_send_size :=
       match grpc_method_config_get_max_request_message_bytes method_config with
       | Some max_request_message_bytes => max_request_message_bytes
       | None => -1
       end;
     limits_max_recv_size :=
       match grpc_method_config_get_max_response_message_bytes method_config with
       | Some max_response_message_bytes => max_response_message_bytes
       | None => -1
       end |}.

(** Modelled from the spec: the method config table and the hash table
    derived from it ([grpc_method_config_table], [grpc_mdstr_hash_table])
    live in files that are not among the sources.  The spec describes a
    mapping from method path to entry, looked up by exact match on the
    path. *)
Definition grpc_method_config_table_convert {A B : Type}
    (table : gmap string A) (convert_value : A → B) : gmap string B :=
  convert_value <$> table.

(** Modelled from the spec: [grpc_method_config_table_get], absent like the
    tables; "lookup is exact string match on method path". *)
Definition grpc_method_config_table_get {B : Type}
    (table : gmap string B) (path : string) : option B :=
  table !! path.

(** ** Channel and call data *)

(** A closure pointer as the filter sees it: a closure owned by somebody
    else, or the address of the call's own [recv_message_ready] member. *)
Inductive grpc_closure_ptr :=
  | Closure (id : N)
  | calld_recv_message_ready.

(** The address of a [grpc_byte_stream*] slot. *)
Definition byte_stream_slot := N.

(** [struct call_data].  The [recv_message_ready] member is the closure
    that [init_call_elem] binds to the callback of the same name; its
    address is [calld_recv_message_ready]. *)
Record call_data := Build_call_data {
  calld_max_send_size : Z;
  calld_max_recv_size : Z;
  calld_recv_message : byte_stream_slot;
  calld_next_recv_message_ready : option grpc_closure_ptr
}.

(** [struct channel_data] *)
Record channel_data := Build_channel_data {
  chand_max_send_size : Z;
  chand_max_recv_size : Z;
  chand_method_limit_table : option (gmap string message_size_limits)
}.

(** ** Call element constructor *)

(** [init_call_elem].  The memory of [calld] is handed in as it is: the
    constructor leaves [recv_message] untouched. *)
Definition init_call_elem (chand : channel_data) (calld : call_data)
    (path : string) : call_data :=
  let max_send_size := chand_max_send_size chand in
  let max_recv_size := chand_max_recv_size chand in
  let merged :=
    match chand_method_limit_table chand with
    | Some method_limit_table =>
        match grpc_method_config_table_get method_limit_table path with
        | Some limits =>
            let max_send_size :=
              if (limits_max_send_size limits >=? 0) &&
                 ((limits_max_send_size limits <? max_send_size) ||
                  (max_send_size <? 0))
              then limits_max_send_size limits else max_send_size in
            let max_recv_size :=
              if (limits_max_recv_size limits >=? 0) &&
                 ((limits_max_recv_size limits <? max_recv_size) ||
                  (max_recv_size <? 0))
              then limits_max_recv_size limits else max_recv_size in
            (max_send_size, max_recv_size)
        | None => (max_send_size, max_recv_size)
        end
    | None => (max_send_size, max_recv_size)
    end in
  {| calld_max_send_size := merged.1;
     calld_max_recv_size := merged.2;
     calld_recv_message := calld_recv_message calld;
     calld_next_recv_message_ready := None |}.

(** ** Size caps, as the specification words them *)

(** A cap is an optional non-negative bound; a negative [int] stands for
    its absence. *)
Definition cap_of_int (z : Z) : option Z :=
  if z <? 0 then None else Some z.

(** [tighter a b]: the minimum, ignoring absent caps; absent only if both
    are. *)
Definition tighter (a b : option Z) : option Z :=
  match a, b with
  | Some x, Some y => Some (Z.min x y)
  | Some x, None => Some x
  | None, Some y => Some y
  | None, None => None
  end.

(** [cap_le a b]: cap [a] is at least as tight as cap [b]; an absent cap
    is the loosest. *)
Definition cap_le (a b : option Z) : Prop :=
  match a, b with
  | _, None => True
  | None, Some _ => False
  | Some x, Some y => x <= y
  end.

(** The per-method limits that apply to a call on [path], if any. *)
Definition method_limits (chand : channel_data) (path : string)
  : option message_size_limits :=
  match chand_method_limit_table chand with
  | Some method_limit_table =>
      grpc_method_config_table_get method_limit_table path
  | None => None
  end.

(** ** Byte streams, errors and stream ops *)

(** [grpc_byte_stream]: the filter reads its [length] member only, a
    [uint32_t]. *)
Record grpc_byte_stream := Build_grpc_byte_stream {
  bs_length : N
}.

(** The first members of [enum grpc_status_code], the status codes of the
    protocol. *)
Inductive grpc_status_code :=
  | GRPC_STATUS_OK
  | GRPC_STATUS_CANCELLED
  | GRPC_STATUS_UNKNOWN
  | GRPC_STATUS_INVALID_ARGUMENT.

(** The enumerator's value, for the places that take an [intptr_t]. *)
Definition int_of_status (s : grpc_status_code) : Z :=
  match s with
  | GRPC_STATUS_OK => 0
  | GRPC_STATUS_CANCELLED => 1
  | GRPC_STATUS_UNKNOWN => 2
  | GRPC_STATUS_INVALID_ARGUMENT => 3
  end.

(** Keys of the integer attributes of an error. *)
Inductive grpc_error_ints :=
  | GRPC_ERROR_INT_ERRNO
  | GRPC_ERROR_INT_GRPC_STATUS.

(** Modelled from the spec: [grpc_error] and the functions building it
    come from [src/core/lib/iomgr/error.c], which is not among the
    sources.  The spec speaks of an error with a message and a status
    class, and of one failure that retains several errors as its causes:
    an error is either [GRPC_ERROR_NONE] or a description with integer
    attributes and the list of the errors attached to it as children. *)
#[warnings="-register-all"]
Inductive grpc_error :=
  | GRPC_ERROR_NONE
  | GRPC_ERROR (desc : string) (ints : list (grpc_error_ints * Z))
               (errs : list grpc_error).

(** Modelled from the spec: [GRPC_ERROR_CREATE], absent like [grpc_error];
    a new error with the given message and nothing else. *)
Definition GRPC_ERROR_CREATE (desc : string) : grpc_error :=
  GRPC_ERROR desc [] [].

(** Modelled from the spec: [grpc_error_set_int], absent like [grpc_error];
    the error with one more integer attribute, here its status class.  On
    [GRPC_ERROR_NONE], which the filter never passes, the result carries
    the attribute alone. *)
Definition grpc_error_set_int (src : grpc_error) (which : grpc_error_ints)
    (value : Z) : grpc_error :=
  match src with
  | GRPC_ERROR_NONE => GRPC_ERROR "" [(which, value)] []
  | GRPC_ERROR desc ints errs => GRPC_ERROR desc ((which, value) :: ints) errs
  end.

(** Modelled from the spec: [grpc_error_add_child], absent like
    [grpc_error]; one failure that keeps [src] and gains [child] as a
    further cause.  On [GRPC_ERROR_NONE], which the filter never passes,
    the result carries the child alone. *)
Definition grpc_error_add_child (src child : grpc_error) : grpc_error :=
  match src with
  | GRPC_ERROR_NONE => GRPC_ERROR "" [] [child]
  | GRPC_ERROR desc ints errs => GRPC_ERROR desc ints (errs ++ [child])
  end.

(** [grpc_transport_stream_op], with the three members the filter names;
    [F] is the type of everything else the op carries. *)
Record grpc_transport_stream_op (F : Type) := Build_grpc_transport_stream_op {
  op_send_message : option grpc_byte_stream;
  op_recv_message : byte_stream_slot;
  op_recv_message_ready : option grpc_closure_ptr;
  op_other_members : F
}.
Arguments Build_grpc_transport_stream_op {F} _ _ _ _.
Arguments op_send_message {F} _.
Arguments op_recv_message {F} _.
Arguments op_recv_message_ready {F} _.
Arguments op_other_members {F} _.

(** What a filter function does to its surroundings, under the name of
    the function it calls. *)
Inductive effect (F : Type) :=
  | grpc_call_element_send_close_with_message
      (status : grpc_status_code) (message : string)
  | grpc_call_next_op (op : grpc_transport_stream_op F)
  | grpc_exec_ctx_sched (closure : option grpc_closure_ptr)
      (error : grpc_error).
Arguments grpc_call_element_send_close_with_message {F} _ _.
Arguments grpc_call_next_op {F} _.
Arguments grpc_exec_ctx_sched {F} _ _.

(** [gpr_asprintf] with the two formats of the filter: [%u] prints the
    stream length and [%d] the limit, both in decimal. *)
Definition sent_message_string (length : N) (max_send_size : Z) : string :=
  "Sent message larger than max (" +:+ pretty length +:+ " vs. " +:+
  pretty max_send_size +:+ ")".

Definition received_message_string (length : N) (max_recv_size : Z) : string :=
  "Received message larger than max (" +:+ pretty length +:+ " vs. " +:+
  pretty max_recv_size +:+ ")".

(** ** The receive callback *)

(** [recv_message_ready].  [slots] is the memory holding the
    [grpc_byte_stream*] slots at the time the callback runs; a slot without
    a stream holds [NULL].  The callback does not write to [calld]. *)
Definition recv_message_ready {F : Type}
    (slots : gmap byte_stream_slot grpc_byte_stream) (calld : call_data)
    (error : grpc_error) : list (effect F) :=
  let error :=
    match slots !! calld_recv_message calld with
    | Some stream =>
        if (calld_max_recv_size calld >=? 0) &&
           (Z.of_N (bs_length stream) >?
            size_t_of_int (calld_max_recv_size calld))
        then
          let message_string :=
            received_message_string (bs_length stream)
              (calld_max_recv_size calld) in
          let new_error :=
            grpc_error_set_int (GRPC_ERROR_CREATE message_string)
              GRPC_ERROR_INT_GRPC_STATUS
              (int_of_status GRPC_STATUS_INVALID_ARGUMENT) in
          match error with
          | GRPC_ERROR_NONE => new_error
          | _ => grpc_error_add_child error new_error
          end
        else error
    | None => error
    end in
  [grpc_exec_ctx_sched (calld_next_recv_message_ready calld) error].

(** ** The stream-op interceptor *)

(** [start_transport_stream_op]: the call data after the function, and
    what it did, in order. *)
Definition start_transport_stream_op {F : Type} (calld : call_data)
    (op : grpc_transport_stream_op F) : call_data * list (effect F) :=
  let check :=
    match op_send_message op with
    | Some stream =>
        if (calld_max_send_size calld >=? 0) &&
           (Z.of_N (bs_length stream) >?
            size_t_of_int (calld_max_send_size calld))
        then
          [grpc_call_element_send_close_with_message
             GRPC_STATUS_INVALID_ARGUMENT
             (sent_message_string (bs_length stream)
                (calld_max_send_size calld))]
        else []
    | None => []
    end in
  let injected :=
    match op_recv_message_ready op with
    | Some next =>
        ({| calld_max_send_size := calld_max_send_size calld;
            calld_max_recv_size := calld_max_recv_size calld;
            calld_recv_message := op_recv_message op;
            calld_next_recv_message_ready := Some next |},
         {| op_send_message := op_send_message op;
            op_recv_message := op_recv_message op;
            op_recv_message_ready := Some calld_recv_message_ready;
            op_other_members := op_other_members op |})
    | None => (calld, op)
    end in
  (injected.1, check ++ [grpc_call_next_op injected.2]).

(** [destroy_call_elem]: the body is empty. *)
Definition destroy_call_elem {F : Type} (calld : call_data)
  : call_data * list (effect F) :=
  (calld, []).

(** ** The life of a call element *)

(** What can happen to a call element after its construction: an op is
    started on it, the transport runs the closure at
    [calld_recv_message_ready], or the call is destroyed. *)
Inductive call_step (F : Type) :=
  | StartOp (op : grpc_transport_stream_op F)
  | RunRecvMessageReady (slots : gmap byte_stream_slot grpc_byte_stream)
      (error : grpc_error)
  | DestroyCall.
Arguments StartOp {F} _.
Arguments RunRecvMessageReady {F} _ _.
Arguments DestroyCall {F}.

Definition call_step_exec {F : Type} (calld : call_data) (s : call_step F)
  : call_data * list (effect F) :=
  match s with
  | StartOp op => start_transport_stream_op calld op
  | RunRecvMessageReady slots error =>
      (calld, recv_message_ready slots calld error)
  | DestroyCall => destroy_call_elem calld
  end.

Fixpoint run {F : Type} (calld : call_data) (steps : list (call_step F))
  : call_data * list (effect F) :=
  match steps with
  | [] => (calld, [])
  | s :: steps =>
      let r := call_step_exec calld s in
      let r' := run r.1 steps in
      (r'.1, r.2 ++ r'.2)
  end.

(** The closures scheduled by a list of effects, in order. *)
Definition scheduled {F : Type} (es : list (effect F))
  : list (option grpc_closure_ptr) :=
  omap (λ e, match e with
             | grpc_exec_ctx_sched closure _ => Some closure
             | _ => None
             end) es.

(** The ops passed to the next filter by a list of effects, in order. *)
Definition forwarded {F : Type} (es : list (effect F))
  : list (grpc_transport_stream_op F) :=
  omap (λ e, match e with
             | grpc_call_next_op op => Some op
             | _ => None
             end) es.

(** The close-with-message requests among a list of effects. *)
Definition closes {F : Type} (es : list (effect F))
  : list (grpc_status_code * string) :=
  omap (λ e, match e with
             | grpc_call_element_send_close_with_message status message =>
                 Some (status, message)
             | _ => None
             end) es.

(** ** Channel arguments *)

(** [grpc_arg_type] *)
Inductive grpc_arg_type :=
  | GRPC_ARG_STRING
  | GRPC_ARG_INTEGER
  | GRPC_ARG_POINTER.

(** The [value] union of a [grpc_arg], tagged by its [type].  The only
    pointer the filter follows is the one of the service config, which it
    reads as a method config table. *)
Inductive grpc_arg_value :=
  | arg_string (s : string)
  | arg_integer (integer : Z)
  | arg_pointer (p : gmap string grpc_method_config).

(** [grpc_arg] *)
Record grpc_arg := Build_grpc_arg {
  arg_key : string;
  arg_value : grpc_arg_value
}.

Definition arg_type (arg : grpc_arg) : grpc_arg_type :=
  match arg_value arg with
  | arg_string _ => GRPC_ARG_STRING
  | arg_integer _ => GRPC_ARG_INTEGER
  | arg_pointer _ => GRPC_ARG_POINTER
  end.

(** Modelled from the spec: the key macros are defined in a header that is
    not among the sources; the spec names the keys. *)
Definition GRPC_ARG_MAX_SEND_MESSAGE_LENGTH : string :=
  "max_send_message_length".
Definition GRPC_ARG_MAX_RECEIVE_MESSAGE_LENGTH : string :=
  "max_receive_message_length".
Definition GRPC_ARG_SERVICE_CONFIG : string := "service_config".

(** [grpc_integer_options] *)
Record grpc_integer_options := Build_grpc_integer_options {
  default_value : Z;
  min_value : Z;
  max_value : Z
}.

(** Modelled from the spec: [grpc_channel_arg_get_integer] is defined in
    [src/core/lib/channel/channel_args.c], which is not among the sources.
    The spec says of either key: "clamped to [0, INT_MAX]", the bounds the
    filter passes in [options].  The spec's configuration holds integers
    only; an argument of another type counts as no value and yields the
    default. *)
Definition grpc_channel_arg_get_integer (arg : grpc_arg)
    (options : grpc_integer_options) : Z :=
  match arg_value arg with
  | arg_integer integer =>
      Z.max (min_value options) (Z.min (max_value options) integer)
  | _ => default_value options
  end.

(** Modelled from the spec: [grpc_channel_args_find] is defined in
    [src/core/lib/channel/channel_args.c], which is not among the sources.
    The spec has the configuration hold one optional service config; the
    search returns the first argument with the given key, or [NULL]. *)
Definition grpc_channel_args_find (channel_args : list grpc_arg)
    (name : string) : option grpc_arg :=
  List.find (λ arg, String.eqb (arg_key arg) name) channel_args.

(** [grpc_channel_element_args], with the members the filter reads. *)
Record grpc_channel_element_args := Build_grpc_channel_element_args {
  channel_args : list grpc_arg;
  is_last : bool
}.

(** ** Assertions *)

(** A computation that runs to its end, or is aborted by a [GPR_ASSERT]
    whose condition, given as the text of the source, is false. *)
Inductive asserted (A : Type) :=
  | Done (a : A)
  | Aborted (condition : string).
Arguments Done {A} _.
Arguments Aborted {A} _.

Definition asserted_bind {A B : Type} (m : asserted A) (k : A → asserted B)
  : asserted B :=
  match m with
  | Done a => k a
  | Aborted condition => Aborted condition
  end.

Definition GPR_ASSERT (b : bool) (condition : string) : asserted unit :=
  if b then Done () else Aborted condition.

Notation "m ;;; k" := (asserted_bind m (λ _, k))
  (at level 100, k at level 200, right associativity).

(** ** Channel element constructor *)

(** The body of the loop over [args->channel_args->args]. *)
Definition init_channel_elem_arg (chand : channel_data) (arg : grpc_arg)
  : channel_data :=
  let chand :=
    if String.eqb (arg_key arg) GRPC_ARG_MAX_SEND_MESSAGE_LENGTH then
      let options :=
        {| default_value := DEFAULT_MAX_SEND_MESSAGE_LENGTH;
           min_value := 0; max_value := INT_MAX |} in
      {| chand_max_send_size := grpc_channel_arg_get_integer arg options;
         chand_max_recv_size := chand_max_recv_size chand;
         chand_method_limit_table := chand_method_limit_table chand |}
    else chand in
  if String.eqb (arg_key arg) GRPC_ARG_MAX_RECEIVE_MESSAGE_LENGTH then
    let options :=
      {| default_value := DEFAULT_MAX_RECV_MESSAGE_LENGTH;
         min_value := 0; max_value := INT_MAX |} in
    {| chand_max_send_size := chand_max_send_size chand;
       chand_max_recv_size := grpc_channel_arg_get_integer arg options;
       chand_method_limit_table := chand_method_limit_table chand |}
  else chand.

(** [init_channel_elem] *)
Definition init_channel_elem (args : grpc_channel_element_args)
  : asserted channel_data :=
  GPR_ASSERT (negb (is_last args)) "!args->is_last" ;;;
  let chand :=
    {| chand_max_send_size := DEFAULT_MAX_SEND_MESSAGE_LENGTH;
       chand_max_recv_size := DEFAULT_MAX_RECV_MESSAGE_LENGTH;
       chand_method_limit_table := None |} in
  let chand := foldl init_channel_elem_arg chand (channel_args args) in
  match grpc_channel_args_find (channel_args args) GRPC_ARG_SERVICE_CONFIG with
  | Some channel_arg =>
      match arg_value channel_arg with
      | arg_pointer p =>
          Done {| chand_max_send_size := chand_max_send_size chand;
                  chand_max_recv_size := chand_max_recv_size chand;
                  chand_method_limit_table :=
                    Some (grpc_method_config_table_convert p
                            method_config_convert_value) |}
      | _ => Aborted "channel_arg->type == GRPC_ARG_POINTER"
      end
  | None => Done chand
  end.

(** The send and receive options of the loop, for the statements. *)
Definition send_options : grpc_integer_options :=
  {| default_value := DEFAULT_MAX_SEND_MESSAGE_LENGTH;
     min_value := 0; max_value := INT_MAX |}.
Definition recv_options : grpc_integer_options :=
  {| default_value := DEFAULT_MAX_RECV_MESSAGE_LENGTH;
     min_value := 0; max_value := INT_MAX |}.

(** Clamping to a closed range. *)
Definition clamp (lo hi z : Z) : Z := Z.max lo (Z.min hi z).

(** The error the receive callback builds for an oversized message. *)
Definition size_error (message_string : string) : grpc_error :=
  grpc_error_set_int (GRPC_ERROR_CREATE message_string)
    GRPC_ERROR_INT_GRPC_STATUS (int_of_status GRPC_STATUS_INVALID_ARGUMENT).

(** The test both checks make, on the call's limit and a stream length. *)
Definition exceeds (max_size : Z) (length : N) : bool :=
  (max_size >=? 0) && (Z.of_N length >? size_t_of_int max_size).

(** The error handed to [grpc_exec_ctx_sched] by the only effect of the
    receive callback. *)
Definition delivered {F : Type} (es : list (effect F)) : option grpc_error :=
  match es with
  | [grpc_exec_ctx_sched _ error] => Some error
  | _ => None
  end.

(** ** Sample values *)

(** A call limited to 1024 bytes out and 4 MiB in, with a receive closure
    saved. *)
Definition sample_calld : call_data :=
  {| calld_max_send_size := 1024;
     calld_max_recv_size := 4194304;
     calld_recv_message := 0%N;
     calld_next_recv_message_ready := Some (Closure 7) |}.

(** An op sending 2048 bytes and registering closure 9 for the receive. *)
Definition sample_op : grpc_transport_stream_op unit :=
  {| op_send_message := Some {| bs_length := 2048 |};
     op_recv_message := 0%N;
     op_recv_message_ready := Some (Closure 9);
     op_other_members := () |}.

(** Slot 0 holds a received stream of 5 MiB. *)
Definition sample_slots : gmap byte_stream_slot grpc_byte_stream :=
  {[ 0%N := {| bs_length := 5242880 |} ]}.

(** How the effective limit [E] of one direction stands to the channel's
    limit [D] and the method's limit [O] for that direction, in the
    specification's terms: [E] is the tighter of the two; it is [D] when
    [O] is absent or no tighter than [D], and [O] when [O] is set and
    tighter; in all cases [E] is at least as tight as [D]. *)
Definition resolved (D O E : Z) : Prop :=
  cap_of_int E = tighter (cap_of_int D) (cap_of_int O) ∧
  (cap_of_int O = None ∨ cap_le (cap_of_int D) (cap_of_int O) → E = D) ∧
  (cap_of_int O ≠ None ∧ ¬ cap_le (cap_of_int D) (cap_of_int O) → E = O) ∧
  cap_le (cap_of_int E) (cap_of_int D).

(** A channel with no send limit, 1024 bytes in, and limits for one
    method. *)
Definition sample_chand : channel_data :=
  {| chand_max_send_size := -1;
     chand_max_recv_size := 1024;
     chand_method_limit_table :=
       Some {[ "/svc/Big" := {| limits_max_send_size := 1024;
                                limits_max_recv_size := 2048 |} ]} |}.

(** ** Traces of a call *)

(** One receive from registration to completion: the op that registers it,
    and the memory and error with which the transport later runs the
    callback. *)
Definition receive_round (F : Type) : Type :=
  grpc_transport_stream_op F *
  gmap byte_stream_slot grpc_byte_stream *
  grpc_error.

Definition round_steps {F : Type} (r : receive_round F) : list (call_step F) :=
  [StartOp r.1.1; RunRecvMessageReady r.1.2 r.2].

(** The steps of a call on which every receive is completed, by one run
    of the callback, before the next is registered. *)
Definition rounds_steps {F : Type} (rs : list (receive_round F))
  : list (call_step F) :=
  concat (map round_steps rs).

(** Steps that start no op. *)
Definition starts_no_op {F : Type} (s : call_step F) : Prop :=
  match s with
  | StartOp _ => False
  | _ => True
  end.

(** The op as the interceptor passes it on: the receive continuation, if
    there is one, replaced by the call's own. *)
Definition intercepted {F : Type} (op : grpc_transport_stream_op F)
  : grpc_transport_stream_op F :=
  {| op_send_message := op_send_message op;
     op_recv_message := op_recv_message op;
     op_recv_message_ready :=
       match op_recv_message_ready op with
       | Some _ => Some calld_recv_message_ready
       | None => None
       end;
     op_other_members := op_other_members op |}.

(** A freshly constructed call on [sample_chand]. *)
Definition sample_new_calld : call_data :=
  init_call_elem sample_chand sample_calld "/svc/Big".

(** Two receives, the first completing in time with a message over the
    limit, the second cancelled. *)
Definition sample_rounds : list (receive_round unit) :=
  [ (sample_op, sample_slots, GRPC_ERROR_NONE);
    ({| op_send_message := None; op_recv_message := 1%N;
        op_recv_message_ready := Some (Closure 11);
        op_other_members := () |},
     sample_slots, GRPC_ERROR "Cancelled" [] []) ].

(** A new call on which a receive is registered and completed. *)
Definition sample_completed : call_data * list (effect unit) :=
  run sample_new_calld
    [StartOp sample_op; RunRecvMessageReady sample_slots GRPC_ERROR_NONE].

(** A new call on which a receive is registered, and which is destroyed
    with the callback never run. *)
Definition sample_destroyed : call_data * list (effect unit) :=
  run sample_new_calld [StartOp sample_op; DestroyCall].

(** ** Reading the channel arguments *)

(** The last argument stored under [key], if any. *)
Definition last_with_key (key : string) (channel_args : list grpc_arg)
  : option grpc_arg :=
  last (List.filter (λ arg, String.eqb (arg_key arg) key) channel_args).

(** The limit an argument of the list yields under [options]: the clamped
    integer of the last argument stored under [key], or the default when
    there is none (or when that argument holds no integer). *)
Definition limit_from_args (key : string) (options : grpc_integer_options)
    (channel_args : list grpc_arg) : Z :=
  match last_with_key key channel_args with
  | Some arg =>
      match arg_value arg with
      | arg_integer integer =>
          clamp (min_value options) (max_value options) integer
      | _ => default_value options
      end
  | None => default_value options
  end.

(** The arguments stored under one of the two size keys. *)
Definition is_size_key (arg : grpc_arg) : bool :=
  String.eqb (arg_key arg) GRPC_ARG_MAX_SEND_MESSAGE_LENGTH ||
  String.eqb (arg_key arg) GRPC_ARG_MAX_RECEIVE_MESSAGE_LENGTH.

(** Channel arguments that give the send limit three times and the receive
    limit not at all, among others. *)
Definition sample_channel_args : list grpc_arg :=
  [ {| arg_key := GRPC_ARG_MAX_SEND_MESSAGE_LENGTH;
       arg_value := arg_integer 100 |};
    {| arg_key := "primary_user_agent"; arg_value := arg_string "test" |};
    {| arg_key := GRPC_ARG_MAX_SEND_MESSAGE_LENGTH;
       arg_value := arg_integer (-5) |};
    {| arg_key := GRPC_ARG_SERVICE_CONFIG;
       arg_value :=
         arg_pointer
           {[ "/svc/Big" :=
                {| grpc_method_config_get_max_request_message_bytes := Some 1024;
                   grpc_method_config_get_max_response_message_bytes := None |} ]} |};
    {| arg_key := GRPC_ARG_MAX_SEND_MESSAGE_LENGTH;
       arg_value := arg_integer 65536 |} ].

Definition sample_args : grpc_channel_element_args :=
  {| channel_args := sample_channel_args; is_last := false |}.

(** Channel arguments whose service config is an integer. *)
Definition sample_bad_args : grpc_channel_element_args :=
  {| channel_args :=
       [ {| arg_key := GRPC_ARG_SERVICE_CONFIG; arg_value := arg_integer 0 |} ];
     is_last := false |}.

(** The channel data left by the loop over the arguments. *)
Definition scanned (channel_args : list grpc_arg) : channel_data :=
  foldl init_channel_elem_arg
    {| chand_max_send_size := DEFAULT_MAX_SEND_MESSAGE_LENGTH;
       chand_max_recv_size := DEFAULT_MAX_RECV_MESSAGE_LENGTH;
       chand_method_limit_table := None |}
    channel_args.

(** The channel data [init_channel_elem] builds from [sample_args]. *)
Definition sample_built_chand : channel_data :=
  {| chand_max_send_size := 65536;
     chand_max_recv_size := 4194304;
     chand_method_limit_table :=
       Some {[ "/svc/Big" := {| limits_max_send_size := 1024;
                                limits_max_recv_size := -1 |} ]} |}.

(** Closes [int_range z] for a literal [z]. *)
Ltac int_range_literal := unfold int_range, INT_MIN, INT_MAX; simpl; lia.

(** ** The value vtable of the limit table *)

(** [message_size_limits_copy]: a new block holding the members of the
    old one. *)
Definition message_size_limits_copy (value : message_size_limits)
  : message_size_limits :=
  {| limits_max_send_size := limits_max_send_size value;
     limits_max_recv_size := limits_max_recv_size value |}.

(** [message_size_limits_cmp] *)
Definition message_size_limits_cmp (v1 v2 : message_size_limits) : Z :=
  if limits_max_send_size v1 >? limits_max_send_size v2 then 1
  else if limits_max_send_size v1 <? limits_max_send_size v2 then -1
  else if limits_max_recv_size v1 >? limits_max_recv_size v2 then 1
  else if limits_max_recv_size v1 <? limits_max_recv_size v2 then -1
  else 0.

(** ** Reading a trace *)

(** The ops started by a list of steps, in order. *)
Definition started {F : Type} (steps : list (call_step F))
  : list (grpc_transport_stream_op F) :=
  omap (λ s, match s with
             | StartOp op => Some op
             | _ => None
             end) steps.

(** The errors with which the transport runs the callback in a list of
    steps, in order. *)
Definition reported {F : Type} (steps : list (call_step F)) : list grpc_error :=
  omap (λ s, match s with
             | RunRecvMessageReady _ error => Some error
             | _ => None
             end) steps.

(** The errors handed to [grpc_exec_ctx_sched] by a list of effects, in
    order. *)
Definition delivered_errors {F : Type} (es : list (effect F))
  : list grpc_error :=
  omap (λ e, match e with
             | grpc_exec_ctx_sched _ error => Some error
             | _ => None
             end) es.

(** The keys the channel constructor looks for. *)
Definition is_filter_key (arg : grpc_arg) : bool :=
  is_size_key arg || String.eqb (arg_key arg) GRPC_ARG_SERVICE_CONFIG.

(** Arguments meant for other parts of the channel. *)
Definition sample_other_args : grpc_channel_element_args :=
  {| channel_args :=
       [ {| arg_key := "primary_user_agent"; arg_value := arg_string "test" |};
         {| arg_key := "max_concurrent_streams"; arg_value := arg_integer 8 |} ];
     is_last := false |}.

(** Three limit pairs in ascending order. *)
Definition sample_limits_a : message_size_limits :=
  {| limits_max_send_size := -1; limits_max_recv_size := 4096 |}.
Definition sample_limits_b : message_size_limits :=
  {| limits_max_send_size := 1024; limits_max_recv_size := -1 |}.
Definition sample_limits_c : message_size_limits :=
  {| limits_max_send_size := 1024; limits_max_recv_size := 2048 |}.

(** A call with no limit in either direction. *)
Definition sample_unlimited_calld : call_data :=
  {| calld_max_send_size := -1;
     calld_max_recv_size := -1;
     calld_recv_message := 0%N;
     calld_next_recv_message_ready := None |}.

(** A method config that sets a negative request size. *)
Definition sample_negative_config : grpc_method_config :=
  {| grpc_method_config_get_max_request_message_bytes := Some (-7);
     grpc_method_config_get_max_response_message_bytes := None |}.

(** A channel of 4096 bytes out whose table holds that config, converted. *)
Definition sample_negative_chand : channel_data :=
  {| chand_max_send_size := 4096;
     chand_max_recv_size := 4194304;
     chand_method_limit_table :=
       Some {[ "/svc/Odd" :=
                 method_config_convert_value sample_negative_config ]} |}.

(** An op sending 5000 bytes and registering no receive. *)
Definition sample_long_op : grpc_transport_stream_op unit :=
  {| op_send_message := Some {| bs_length := 5000 |};
     op_recv_message := 0%N;
     op_recv_message_ready := None;
     op_other_members := () |}.

(** An op registering closure 11 for a receive into slot 1, which
    [sample_slots] leaves empty. *)
Definition sample_recv_op : grpc_transport_stream_op unit :=
  {| op_send_message := None;
     op_recv_message := 1%N;
     op_recv_message_ready := Some (Closure 11);
     op_other_members := () |}.

(** ** Receives, from registration to completion *)

(** The receive continuations registered by a list of steps, in order. *)
Definition registered {F : Type} (steps : list (call_step F))
  : list grpc_closure_ptr :=
  omap (λ s, match s with
             | StartOp op => op_recv_message_ready op
             | _ => None
             end) steps.

(** [complete_receives pending steps]: on a call with a receive
    outstanding or not, as [pending] says, the steps complete every
    receive in good order.  The callback runs only for an outstanding
    receive; a receive is registered, and the call destroyed, only when
    none is outstanding; none is outstanding at the end.  Ops that
    register no receive may come at any point. *)
Fixpoint complete_receives {F : Type} (pending : bool)
    (steps : list (call_step F)) : bool :=
  match steps with
  | [] => negb pending
  | StartOp op :: steps =>
      match op_recv_message_ready op with
      | Some _ => negb pending && complete_receives true steps
      | None => complete_receives pending steps
      end
  | RunRecvMessageReady _ _ :: steps =>
      pending && complete_receives false steps
  | DestroyCall :: steps => negb pending && complete_receives false steps
  end.

(** A call on which a send-only op comes between the registration of a
    receive and its completion, and a second receive follows. *)
Definition sample_steps : list (call_step unit) :=
  [ StartOp sample_op;
    StartOp sample_long_op;
    RunRecvMessageReady sample_slots GRPC_ERROR_NONE;
    StartOp sample_recv_op;
    StartOp sample_long_op;
    RunRecvMessageReady sample_slots (GRPC_ERROR "Cancelled" [] []);
    DestroyCall ].

(** * Properties *)

(** ** Arithmetic of the checks *)

Lemma size_t_of_int_id z : int_range z → 0 <= z → size_t_of_int z = z.
Proof.
  unfold int_range, INT_MAX, size_t_of_int. intros [_ Hhi] Hlo.
  apply Z.mod_small. lia.
Qed.

Lemma exceeds_true max_size length :
  int_range max_size →
  exceeds max_size length = true ↔ 0 <= max_size ∧ Z.of_N length > max_size.
Proof.
  intros Hr. unfold exceeds. rewrite andb_true_iff, Z.geb_le, Z.gtb_ltb, Z.ltb_lt.
  split.
  - intros [H0 Hlt]. rewrite size_t_of_int_id in Hlt by done. lia.
  - intros [H0 Hgt]. rewrite size_t_of_int_id by done. lia.
Qed.

Lemma exceeds_false max_size length :
  int_range max_size →
  exceeds max_size length = false ↔ ¬ (0 <= max_size ∧ Z.of_N length > max_size).
Proof.
  intros Hr. rewrite <- (exceeds_true max_size length Hr).
  destruct (exceeds max_size length); split; congruence || tauto.
Qed.

Lemma grpc_error_add_child_neq error child :
  grpc_error_add_child error child ≠ error.
Proof.
  destruct error as [|desc ints errs]; simpl; [discriminate|].
  intros Heq. injection Heq as Heq.
  apply (f_equal length) in Heq. rewrite length_app in Heq. simpl in Heq. lia.
Qed.

(** ** What the two functions do, case by case *)

Lemma start_transport_stream_op_closes {F} (calld : call_data)
    (op : grpc_transport_stream_op F) :
  closes (start_transport_stream_op calld op).2 =
    match op_send_message op with
    | Some stream =>
        if exceeds (calld_max_send_size calld) (bs_length stream)
        then [(GRPC_STATUS_INVALID_ARGUMENT,
               sent_message_string (bs_length stream)
                 (calld_max_send_size calld))]
        else []
    | None => []
    end.
Proof.
  unfold start_transport_stream_op, exceeds, closes. simpl.
  destruct (op_send_message op) as [stream|]; [|done].
  by destruct (_ && _).
Qed.

Lemma recv_message_ready_delivered {F} slots (calld : call_data) error :
  recv_message_ready (F:=F) slots calld error =
    [grpc_exec_ctx_sched (calld_next_recv_message_ready calld)
       match slots !! calld_recv_message calld with
       | Some stream =>
           if exceeds (calld_max_recv_size calld) (bs_length stream)
           then
             let new_error :=
               size_error (received_message_string (bs_length stream)
                             (calld_max_recv_size calld)) in
             match error with
             | GRPC_ERROR_NONE => new_error
             | _ => grpc_error_add_child error new_error
             end
           else error
       | None => error
       end].
Proof.
  unfold recv_message_ready, exceeds, size_error.
  destruct (slots !! _) as [stream|]; [|done].
  by destruct (_ && _).
Qed.

(** ** C1 *)

(** C1: an op that carries an outgoing message of length L draws the
    close with status invalid-argument and the text
    "Sent message larger than max (L vs. max_send)", L and the limit in
    decimal, exactly when the call's send limit is set (not negative) and
    L exceeds it, and draws no close otherwise.  In the same way, when the
    receive callback finds a message of length L, the error it hands on is
    the transport's error changed exactly when the receive limit is set
    and L exceeds it, and it then carries the invalid-argument error with
    the text "Received message larger than max (L vs. max_recv)". *)
Theorem size_check_rejects_iff {F} (calld : call_data)
    (op : grpc_transport_stream_op F) (sent received : grpc_byte_stream)
    (slots : gmap byte_stream_slot grpc_byte_stream) (error : grpc_error) :
  int_range (calld_max_send_size calld) →
  int_range (calld_max_recv_size calld) →
  op_send_message op = Some sent →
  slots !! calld_recv_message calld = Some received →
  let max_send := calld_max_send_size calld in
  let max_recv := calld_max_recv_size calld in
  let closed := closes (start_transport_stream_op calld op).2 in
  let new_error :=
    GRPC_ERROR
      ("Received message larger than max (" +:+ pretty (bs_length received)
       +:+ " vs. " +:+ pretty max_recv +:+ ")")
      [(GRPC_ERROR_INT_GRPC_STATUS,
        int_of_status GRPC_STATUS_INVALID_ARGUMENT)] [] in
  (closed = [(GRPC_STATUS_INVALID_ARGUMENT,
              "Sent message larger than max (" +:+ pretty (bs_length sent)
              +:+ " vs. " +:+ pretty max_send +:+ ")")]
   ↔ 0 <= max_send ∧ Z.of_N (bs_length sent) > max_send) ∧
  (closed = [] ↔ ¬ (0 <= max_send ∧ Z.of_N (bs_length sent) > max_send)) ∧
  ∃ error',
    delivered (recv_message_ready (F:=F) slots calld error) = Some error' ∧
    (error' ≠ error ↔ 0 <= max_recv ∧ Z.of_N (bs_length received) > max_recv) ∧
    (error' ≠ error →
     error' = match error with
              | GRPC_ERROR_NONE => new_error
              | _ => grpc_error_add_child error new_error
              end).
Proof.
  intros Hs Hr Hsent Hrecv max_send max_recv closed new_error.
  subst closed new_error max_send max_recv.
  change ("Sent message larger than max (" +:+ pretty (bs_length sent) +:+
          " vs. " +:+ pretty (calld_max_send_size calld) +:+ ")")
    with (sent_message_string (bs_length sent) (calld_max_send_size calld)).
  change (GRPC_ERROR
            ("Received message larger than max (" +:+
             pretty (bs_length received) +:+ " vs. " +:+
             pretty (calld_max_recv_size calld) +:+ ")")
            [(GRPC_ERROR_INT_GRPC_STATUS,
              int_of_status GRPC_STATUS_INVALID_ARGUMENT)] [])
    with (size_error (received_message_string (bs_length received)
                        (calld_max_recv_size calld))).
  rewrite start_transport_stream_op_closes, Hsent.
  rewrite recv_message_ready_delivered, Hrecv. simpl delivered.
  pose proof (exceeds_true _ (bs_length sent) Hs) as Es.
  pose proof (exceeds_true _ (bs_length received) Hr) as Er.
  split; [|split].
  - destruct (exceeds _ (bs_length sent)); split; [tauto|done|done|].
    intros H. apply Es in H. done.
  - destruct (exceeds _ (bs_length sent)); split; [done| | |done].
    + intros H. destruct H. by apply Es.
    + intros _ H. apply Es in H. done.
  - eexists. split; [reflexivity|].
    destruct (exceeds _ (bs_length received)).
    + split.
      * split; [tauto|]. intros _.
        destruct error; [discriminate|]. apply grpc_error_add_child_neq.
      * done.
    + split; [split; [done|] | done].
      intros H. apply Er in H. done.
Qed.

Lemma size_check_rejects_iff_witness :
  closes (start_transport_stream_op sample_calld sample_op).2 =
    [(GRPC_STATUS_INVALID_ARGUMENT,
      "Sent message larger than max (2048 vs. 1024)")] ∧
  delivered (recv_message_ready (F:=unit) sample_slots sample_calld
               GRPC_ERROR_NONE) =
    Some (GRPC_ERROR "Received message larger than max (5242880 vs. 4194304)"
            [(GRPC_ERROR_INT_GRPC_STATUS,
              int_of_status GRPC_STATUS_INVALID_ARGUMENT)] []).
Proof.
  destruct (size_check_rejects_iff sample_calld sample_op
              {| bs_length := 2048 |} {| bs_length := 5242880 |}
              sample_slots GRPC_ERROR_NONE)
    as (Hsend & _ & error' & Hdel & Hiff & Hform).
  - int_range_literal.
  - int_range_literal.
  - reflexivity.
  - reflexivity.
  - split.
    + apply Hsend. simpl. lia.
    + rewrite Hdel. f_equal.
      assert (Hne : error' ≠ GRPC_ERROR_NONE) by (apply Hiff; simpl; lia).
      rewrite (Hform Hne). reflexivity.
Defined.

(** ** C2 *)

Lemma merge_resolved (D O : Z) :
  resolved D O (if (O >=? 0) && ((O <? D) || (D <? 0)) then O else D).
Proof.
  unfold resolved. rewrite Z.geb_leb.
  destruct (Z.leb_spec 0 O), (Z.ltb_spec O D), (Z.ltb_spec D 0); simpl;
    unfold cap_of_int;
    repeat match goal with
           | |- context [?a <? ?b] => destruct (Z.ltb_spec a b)
           end; simpl; try lia;
    (split; [f_equal; lia|]);
    (split; [intros [?|?]; done || lia|]);
    (split; [intros [? ?]; done || lia|]); done || lia.
Qed.

Lemma init_call_elem_unfold chand calld path :
  init_call_elem chand calld path =
    let D_send := chand_max_send_size chand in
    let D_recv := chand_max_recv_size chand in
    match method_limits chand path with
    | Some limits =>
        let O_send := limits_max_send_size limits in
        let O_recv := limits_max_recv_size limits in
        {| calld_max_send_size :=
             if (O_send >=? 0) && ((O_send <? D_send) || (D_send <? 0))
             then O_send else D_send;
           calld_max_recv_size :=
             if (O_recv >=? 0) && ((O_recv <? D_recv) || (D_recv <? 0))
             then O_recv else D_recv;
           calld_recv_message := calld_recv_message calld;
           calld_next_recv_message_ready := None |}
    | None =>
        {| calld_max_send_size := D_send;
           calld_max_recv_size := D_recv;
           calld_recv_message := calld_recv_message calld;
           calld_next_recv_message_ready := None |}
    end.
Proof.
  unfold init_call_elem, method_limits.
  destruct (chand_method_limit_table chand) as [table|]; [|done].
  by destruct (grpc_method_config_table_get table path).
Qed.

(** C2: the call constructor resolves the two directions separately.
    With limits found for the path, the effective limit of a direction is
    tighter(channel limit, method limit): the channel's limit D when the
    method's limit O is absent or not below D, and O when O is set and
    below D (an absent D counting as above every set limit); it is never
    looser than D.  With no table, or no entry for the path, both limits
    of the call are the channel's, unchanged. *)
Theorem init_call_elem_resolves (chand : channel_data) (calld : call_data)
    (path : string) :
  let calld' := init_call_elem chand calld path in
  match method_limits chand path with
  | Some limits =>
      resolved (chand_max_send_size chand) (limits_max_send_size limits)
        (calld_max_send_size calld') ∧
      resolved (chand_max_recv_size chand) (limits_max_recv_size limits)
        (calld_max_recv_size calld')
  | None =>
      calld_max_send_size calld' = chand_max_send_size chand ∧
      calld_max_recv_size calld' = chand_max_recv_size chand
  end.
Proof.
  intros calld'. subst calld'. rewrite init_call_elem_unfold.
  destruct (method_limits chand path) as [limits|]; simpl; [|done].
  split; apply merge_resolved.
Qed.

(** ** C3 *)

(** C3: when the receive callback runs and finds a message whose length
    exceeds the call's receive limit, the limit being set, it builds the
    invalid-argument error with the text
    "Received message larger than max (L vs. max_recv)", the length L and
    the limit written in decimal.  If the transport
    reported no error, the saved continuation is scheduled with that error
    alone; if the transport reported an error, the continuation is
    scheduled with the transport's error, its description, attributes and
    earlier children kept, and the new error added as its last child.
    When there is no message, no limit, or the length is within the limit,
    the continuation is scheduled with the transport's error, or success,
    as it came. *)
Theorem recv_message_ready_outcomes {F}
    (slots : gmap byte_stream_slot grpc_byte_stream) (calld : call_data)
    (error : grpc_error) :
  int_range (calld_max_recv_size calld) →
  let max_recv := calld_max_recv_size calld in
  let next := calld_next_recv_message_ready calld in
  let effects := recv_message_ready (F:=F) slots calld error in
  (∀ stream,
     slots !! calld_recv_message calld = Some stream →
     0 <= max_recv → Z.of_N (bs_length stream) > max_recv →
     let new_error :=
       GRPC_ERROR
         ("Received message larger than max (" +:+ pretty (bs_length stream)
          +:+ " vs. " +:+ pretty max_recv +:+ ")")
         [(GRPC_ERROR_INT_GRPC_STATUS,
           int_of_status GRPC_STATUS_INVALID_ARGUMENT)] [] in
     match error with
     | GRPC_ERROR_NONE => effects = [grpc_exec_ctx_sched next new_error]
     | GRPC_ERROR desc ints errs =>
         effects =
           [grpc_exec_ctx_sched next
              (GRPC_ERROR desc ints (errs ++ [new_error]))]
     end) ∧
  ((∀ stream,
      slots !! calld_recv_message calld = Some stream →
      ¬ (0 <= max_recv ∧ Z.of_N (bs_length stream) > max_recv)) →
   effects = [grpc_exec_ctx_sched next error]).
Proof.
  intros Hr max_recv next effects. subst max_recv next effects.
  rewrite recv_message_ready_delivered. split.
  - intros stream Hs H0 HL. rewrite Hs.
    assert (exceeds (calld_max_recv_size calld) (bs_length stream) = true)
      as -> by (by apply exceeds_true).
    by destruct error.
  - intros Hno. destruct (slots !! _) as [stream|]; [|done].
    assert (exceeds (calld_max_recv_size calld) (bs_length stream) = false)
      as -> by (apply exceeds_false; [done | by apply Hno]).
    done.
Qed.

Lemma recv_message_ready_outcomes_witness :
  recv_message_ready (F:=unit) sample_slots sample_calld
    (GRPC_ERROR "Cancelled" [] [GRPC_ERROR "Socket closed" [] []]) =
  [grpc_exec_ctx_sched (Some (Closure 7))
     (GRPC_ERROR "Cancelled" []
        [GRPC_ERROR "Socket closed" [] [];
         GRPC_ERROR "Received message larger than max (5242880 vs. 4194304)"
           [(GRPC_ERROR_INT_GRPC_STATUS,
             int_of_status GRPC_STATUS_INVALID_ARGUMENT)] []])].
Proof.
  assert (Hrange : int_range (calld_max_recv_size sample_calld))
    by int_range_literal.
  destruct (recv_message_ready_outcomes (F:=unit) sample_slots sample_calld
              (GRPC_ERROR "Cancelled" [] [GRPC_ERROR "Socket closed" [] []])
              Hrange) as [Hover _].
  apply (Hover {| bs_length := 5242880 |}).
  - reflexivity.
  - simpl. lia.
  - simpl. lia.
Defined.

(** ** Running a call step by step *)

Lemma run_cons {F} (calld : call_data) (s : call_step F) steps :
  run calld (s :: steps) =
    ((run (call_step_exec calld s).1 steps).1,
     (call_step_exec calld s).2 ++ (run (call_step_exec calld s).1 steps).2).
Proof. reflexivity. Qed.

Lemma run_app {F} (calld : call_data) (s1 s2 : list (call_step F)) :
  run calld (s1 ++ s2) =
    ((run (run calld s1).1 s2).1, (run calld s1).2 ++ (run (run calld s1).1 s2).2).
Proof.
  revert calld. induction s1 as [|s s1 IH]; intros calld; simpl.
  - by destruct (run calld s2).
  - rewrite IH. simpl. by rewrite app_assoc.
Qed.

Lemma scheduled_app {F} (es1 es2 : list (effect F)) :
  scheduled (es1 ++ es2) = scheduled es1 ++ scheduled es2.
Proof. apply omap_app. Qed.

Lemma start_transport_stream_op_scheduled {F} (calld : call_data)
    (op : grpc_transport_stream_op F) :
  scheduled (start_transport_stream_op calld op).2 = [].
Proof.
  unfold start_transport_stream_op, scheduled. simpl.
  rewrite omap_app. simpl.
  destruct (op_send_message op) as [stream|]; [|done].
  by destruct (_ && _).
Qed.

Lemma start_transport_stream_op_next {F} (calld : call_data)
    (op : grpc_transport_stream_op F) :
  calld_next_recv_message_ready (start_transport_stream_op calld op).1 =
    match op_recv_message_ready op with
    | Some next => Some next
    | None => calld_next_recv_message_ready calld
    end.
Proof.
  unfold start_transport_stream_op. simpl.
  by destruct (op_recv_message_ready op).
Qed.

Lemma recv_message_ready_scheduled {F} slots (calld : call_data) error :
  scheduled (recv_message_ready (F:=F) slots calld error) =
    [calld_next_recv_message_ready calld].
Proof. by rewrite recv_message_ready_delivered. Qed.

Lemma round_steps_run {F} (calld : call_data) (r : receive_round F) :
  is_Some (op_recv_message_ready r.1.1) →
  scheduled (run calld (round_steps r)).2 = [op_recv_message_ready r.1.1] ∧
  calld_next_recv_message_ready (run calld (round_steps r)).1 =
    op_recv_message_ready r.1.1.
Proof.
  intros [next Hnext]. unfold round_steps.
  rewrite !run_cons. cbn [run call_step_exec fst snd].
  rewrite app_nil_r, scheduled_app, start_transport_stream_op_scheduled.
  rewrite recv_message_ready_scheduled, start_transport_stream_op_next.
  by rewrite Hnext.
Qed.

Lemma rounds_steps_run {F} (rs : list (receive_round F)) (calld : call_data) :
  Forall (λ r, is_Some (op_recv_message_ready r.1.1)) rs →
  scheduled (run calld (rounds_steps rs)).2 =
    map (λ r, op_recv_message_ready r.1.1) rs.
Proof.
  intros Hrs. revert calld.
  induction Hrs as [|r rs Hr _ IH]; intros calld; [done|].
  change (rounds_steps (r :: rs)) with (round_steps r ++ rounds_steps rs).
  rewrite run_app. cbn [snd]. rewrite scheduled_app, IH.
  destruct (round_steps_run calld r Hr) as [-> _]. done.
Qed.

(** ** C4 *)

Lemma registered_cons {F} (s : call_step F) (steps : list (call_step F)) :
  registered (s :: steps) =
    match s with
    | StartOp op =>
        match op_recv_message_ready op with
        | Some next => next :: registered steps
        | None => registered steps
        end
    | _ => registered steps
    end.
Proof. by destruct s. Qed.

Lemma call_step_exec_next {F} (calld : call_data) (s : call_step F) :
  calld_next_recv_message_ready (call_step_exec calld s).1 =
    match s with
    | StartOp op =>
        match op_recv_message_ready op with
        | Some next => Some next
        | None => calld_next_recv_message_ready calld
        end
    | _ => calld_next_recv_message_ready calld
    end.
Proof.
  destruct s as [op|slots error|]; [|done|done].
  apply start_transport_stream_op_next.
Qed.

Lemma run_next {F} (steps : list (call_step F)) (calld : call_data) :
  calld_next_recv_message_ready (run calld steps).1 =
    match last (registered steps) with
    | Some next => Some next
    | None => calld_next_recv_message_ready calld
    end.
Proof.
  revert calld. induction steps as [|s steps IH]; intros calld; [done|].
  rewrite run_cons. cbn [fst]. rewrite IH, call_step_exec_next, registered_cons.
  destruct s as [op|slots error|]; try done.
  destruct (op_recv_message_ready op) as [next|]; [|done].
  rewrite last_cons. by destruct (last (registered steps)).
Qed.

Lemma complete_receives_scheduled {F} (steps : list (call_step F))
    (calld : call_data) (pending : bool) :
  complete_receives pending steps = true →
  scheduled (run calld steps).2 =
    (if pending then [calld_next_recv_message_ready calld] else []) ++
    map Some (registered steps).
Proof.
  revert calld pending.
  induction steps as [|s steps IH]; intros calld pending Hsteps.
  - simpl in Hsteps. by destruct pending.
  - rewrite run_cons, registered_cons. cbn [snd]. rewrite scheduled_app.
    destruct s as [op|slots error|]; cbn [call_step_exec fst snd].
    + rewrite start_transport_stream_op_scheduled. cbn [app].
      cbn [complete_receives] in Hsteps.
      pose proof (start_transport_stream_op_next calld op) as Hnext.
      destruct (op_recv_message_ready op) as [next|].
      * apply andb_true_iff in Hsteps as [Hidle Hsteps].
        destruct pending; [done|].
        by rewrite (IH _ true Hsteps), Hnext.
      * by rewrite (IH _ pending Hsteps), Hnext.
    + cbn [complete_receives] in Hsteps.
      apply andb_true_iff in Hsteps as [-> Hsteps].
      by rewrite recv_message_ready_scheduled, (IH _ false Hsteps).
    + cbn [complete_receives] in Hsteps.
      apply andb_true_iff in Hsteps as [Hidle Hsteps].
      destruct pending; [done|].
      by rewrite (IH _ false Hsteps).
Qed.

(** C4, as amended: every run of the receive callback schedules the
    continuation saved in the call exactly once, whatever the outcome
    (message within the limit, message over the limit, error from below
    with or without an oversized message, cancellation), and leaves the
    call data as it was: the saved continuation stays in its place.
    Destroying the call does nothing at all.  After any steps the saved
    continuation is the one registered last, or the one the call began
    with if none was registered: ops without a receive continuation, runs
    of the callback and the destruction leave it alone.  Hence on a call
    where every registered receive is completed by one run of the
    callback before the next is registered and before the call is
    destroyed, with ops that register no receive at any point, the
    continuations scheduled are those registered, each once and in
    order. *)
Theorem saved_continuation_scheduled_once {F} (calld : call_data)
    (steps : list (call_step F)) :
  complete_receives false steps = true →
  (∀ slots error,
     scheduled (call_step_exec (F:=F) calld
                  (RunRecvMessageReady slots error)).2 =
       [calld_next_recv_message_ready calld] ∧
     (call_step_exec (F:=F) calld (RunRecvMessageReady slots error)).1 =
       calld) ∧
  call_step_exec (F:=F) calld DestroyCall = (calld, []) ∧
  (∀ steps' : list (call_step F),
     calld_next_recv_message_ready (run calld steps').1 =
       match last (registered steps') with
       | Some next => Some next
       | None => calld_next_recv_message_ready calld
       end) ∧
  scheduled (run calld steps).2 = map Some (registered steps).
Proof.
  intros Hsteps. split; [|split; [|split]].
  - intros slots error. cbn [call_step_exec fst snd].
    by rewrite recv_message_ready_scheduled.
  - reflexivity.
  - intros steps'. apply run_next.
  - by rewrite (complete_receives_scheduled steps calld false Hsteps).
Qed.

Lemma saved_continuation_scheduled_once_witness :
  complete_receives false sample_steps = true ∧
  scheduled (run sample_new_calld sample_steps).2 =
    [Some (Closure 9); Some (Closure 11)].
Proof.
  split; [reflexivity|].
  destruct (saved_continuation_scheduled_once sample_new_calld sample_steps
              eq_refl) as (_ & _ & _ & Hall).
  exact Hall.
Defined.

(** C4, as stated, fails on two counts.  After the callback has run and
    scheduled the saved continuation, the continuation is still saved in
    the call; and a call destroyed while a receive is registered has
    scheduled nothing, the continuation still saved. *)
Lemma saved_continuation_not_cleared :
  scheduled sample_completed.2 = [Some (Closure 9)] ∧
  calld_next_recv_message_ready sample_completed.1 ≠ None ∧
  scheduled sample_destroyed.2 = [] ∧
  calld_next_recv_message_ready sample_destroyed.1 = Some (Closure 9).
Proof. repeat split; vm_compute; congruence. Qed.

(** ** C5 *)

Lemma start_transport_stream_op_effects {F} (calld : call_data)
    (op : grpc_transport_stream_op F) :
  (start_transport_stream_op calld op).2 =
    map (λ c, grpc_call_element_send_close_with_message c.1 c.2)
      (closes (start_transport_stream_op calld op).2) ++
    [grpc_call_next_op (intercepted op)].
Proof.
  rewrite start_transport_stream_op_closes.
  unfold start_transport_stream_op, exceeds. cbn [fst snd].
  assert ((match op_recv_message_ready op with
           | Some next =>
               ({| calld_max_send_size := calld_max_send_size calld;
                   calld_max_recv_size := calld_max_recv_size calld;
                   calld_recv_message := op_recv_message op;
                   calld_next_recv_message_ready := Some next |},
                {| op_send_message := op_send_message op;
                   op_recv_message := op_recv_message op;
                   op_recv_message_ready := Some calld_recv_message_ready;
                   op_other_members := op_other_members op |})
           | None => (calld, op)
           end).2 = intercepted op) as ->.
  { unfold intercepted. destruct op as [s r [c|] o]; reflexivity. }
  destruct (op_send_message op) as [stream|]; [|done].
  by destruct (_ && _).
Qed.

Lemma intercepted_id {F} (op : grpc_transport_stream_op F) :
  op_recv_message_ready op = None → intercepted op = op.
Proof. destruct op as [s r c o]. simpl. intros ->. reflexivity. Qed.

(** C5, as amended: the interceptor passes every op on to the next filter
    exactly once, as its last act, whether or not the send was rejected;
    for a rejected send the close with the message comes first and the op
    follows it.  An op whose message is within the limit, or that carries
    no message, is passed on with no close before it; it is passed on
    unchanged when it registers no receive continuation, and with only
    that continuation replaced when it does. *)
Theorem start_transport_stream_op_forwards {F} (calld : call_data)
    (op : grpc_transport_stream_op F) :
  int_range (calld_max_send_size calld) →
  let max_send := calld_max_send_size calld in
  let effects := (start_transport_stream_op calld op).2 in
  forwarded effects = [intercepted op] ∧
  last effects = Some (grpc_call_next_op (intercepted op)) ∧
  (∀ stream,
     op_send_message op = Some stream →
     0 <= max_send → Z.of_N (bs_length stream) > max_send →
     effects =
       [grpc_call_element_send_close_with_message GRPC_STATUS_INVALID_ARGUMENT
          (sent_message_string (bs_length stream) max_send);
        grpc_call_next_op (intercepted op)]) ∧
  ((∀ stream,
      op_send_message op = Some stream →
      ¬ (0 <= max_send ∧ Z.of_N (bs_length stream) > max_send)) →
   effects = [grpc_call_next_op (intercepted op)]) ∧
  (op_recv_message_ready op = None → intercepted op = op).
Proof.
  intros Hr max_send effects. subst max_send effects.
  rewrite start_transport_stream_op_effects, start_transport_stream_op_closes.
  split; [|split; [|split; [|split]]].
  - unfold forwarded. rewrite omap_app. simpl.
    destruct (op_send_message op) as [stream|]; [|done].
    by destruct (exceeds _ _).
  - by rewrite last_snoc.
  - intros stream -> H0 HL.
    assert (exceeds (calld_max_send_size calld) (bs_length stream) = true)
      as -> by (by apply exceeds_true).
    reflexivity.
  - intros Hin. destruct (op_send_message op) as [stream|]; [|done].
    assert (exceeds (calld_max_send_size calld) (bs_length stream) = false)
      as -> by (apply exceeds_false; [done | by apply Hin]).
    reflexivity.
  - apply intercepted_id.
Qed.

Lemma start_transport_stream_op_forwards_witness :
  (start_transport_stream_op sample_calld sample_op).2 =
    [grpc_call_element_send_close_with_message GRPC_STATUS_INVALID_ARGUMENT
       "Sent message larger than max (2048 vs. 1024)";
     grpc_call_next_op (intercepted sample_op)].
Proof.
  assert (Hrange : int_range (calld_max_send_size sample_calld))
    by int_range_literal.
  destruct (start_transport_stream_op_forwards sample_calld sample_op Hrange)
    as (_ & _ & Hover & _).
  apply (Hover {| bs_length := 2048 |}).
  - reflexivity.
  - simpl. lia.
  - simpl. lia.
Defined.

(** C5, as stated, fails: the op whose 2048 bytes exceed the call's limit
    of 1024 draws the close and is passed on to the next filter all the
    same. *)
Lemma rejected_send_is_forwarded :
  closes (start_transport_stream_op sample_calld sample_op).2 =
    [(GRPC_STATUS_INVALID_ARGUMENT,
      "Sent message larger than max (2048 vs. 1024)")] ∧
  forwarded (start_transport_stream_op sample_calld sample_op).2 =
    [intercepted sample_op] ∧
  forwarded (start_transport_stream_op sample_calld sample_op).2 ≠ [].
Proof. repeat split; vm_compute; congruence. Qed.

(** ** The loop over the channel arguments *)

Lemma init_channel_elem_arg_send chand arg :
  chand_max_send_size (init_channel_elem_arg chand arg) =
    if String.eqb (arg_key arg) GRPC_ARG_MAX_SEND_MESSAGE_LENGTH
    then grpc_channel_arg_get_integer arg send_options
    else chand_max_send_size chand.
Proof.
  unfold init_channel_elem_arg, send_options.
  by destruct (String.eqb _ GRPC_ARG_MAX_SEND_MESSAGE_LENGTH),
    (String.eqb _ GRPC_ARG_MAX_RECEIVE_MESSAGE_LENGTH).
Qed.

Lemma init_channel_elem_arg_recv chand arg :
  chand_max_recv_size (init_channel_elem_arg chand arg) =
    if String.eqb (arg_key arg) GRPC_ARG_MAX_RECEIVE_MESSAGE_LENGTH
    then grpc_channel_arg_get_integer arg recv_options
    else chand_max_recv_size chand.
Proof.
  unfold init_channel_elem_arg, recv_options.
  by destruct (String.eqb _ GRPC_ARG_MAX_SEND_MESSAGE_LENGTH),
    (String.eqb _ GRPC_ARG_MAX_RECEIVE_MESSAGE_LENGTH).
Qed.

Lemma init_channel_elem_arg_table chand arg :
  chand_method_limit_table (init_channel_elem_arg chand arg) =
    chand_method_limit_table chand.
Proof.
  unfold init_channel_elem_arg.
  by destruct (String.eqb _ GRPC_ARG_MAX_SEND_MESSAGE_LENGTH),
    (String.eqb _ GRPC_ARG_MAX_RECEIVE_MESSAGE_LENGTH).
Qed.

Lemma last_with_key_snoc key channel_args arg :
  last_with_key key (channel_args ++ [arg]) =
    if String.eqb (arg_key arg) key then Some arg
    else last_with_key key channel_args.
Proof.
  unfold last_with_key. rewrite List.filter_app. simpl.
  destruct (String.eqb (arg_key arg) key).
  - by rewrite last_snoc.
  - by rewrite app_nil_r.
Qed.

Lemma foldl_send chand channel_args :
  chand_max_send_size (foldl init_channel_elem_arg chand channel_args) =
    match last_with_key GRPC_ARG_MAX_SEND_MESSAGE_LENGTH channel_args with
    | Some arg => grpc_channel_arg_get_integer arg send_options
    | None => chand_max_send_size chand
    end.
Proof.
  induction channel_args as [|arg channel_args IH] using rev_ind; [done|].
  rewrite foldl_app, last_with_key_snoc. simpl.
  rewrite init_channel_elem_arg_send.
  by destruct (String.eqb _ _).
Qed.

Lemma foldl_recv chand channel_args :
  chand_max_recv_size (foldl init_channel_elem_arg chand channel_args) =
    match last_with_key GRPC_ARG_MAX_RECEIVE_MESSAGE_LENGTH channel_args with
    | Some arg => grpc_channel_arg_get_integer arg recv_options
    | None => chand_max_recv_size chand
    end.
Proof.
  induction channel_args as [|arg channel_args IH] using rev_ind; [done|].
  rewrite foldl_app, last_with_key_snoc. simpl.
  rewrite init_channel_elem_arg_recv.
  by destruct (String.eqb _ _).
Qed.

Lemma get_integer_limit key options channel_args :
  match last_with_key key channel_args with
  | Some arg => grpc_channel_arg_get_integer arg options
  | None => default_value options
  end = limit_from_args key options channel_args.
Proof.
  unfold limit_from_args, grpc_channel_arg_get_integer, clamp.
  destruct (last_with_key key channel_args) as [arg|]; [|done].
  by destruct (arg_value arg).
Qed.

Lemma scanned_send channel_args :
  chand_max_send_size (scanned channel_args) =
    limit_from_args GRPC_ARG_MAX_SEND_MESSAGE_LENGTH send_options channel_args.
Proof. unfold scanned. by rewrite foldl_send, <- get_integer_limit. Qed.

Lemma scanned_recv channel_args :
  chand_max_recv_size (scanned channel_args) =
    limit_from_args GRPC_ARG_MAX_RECEIVE_MESSAGE_LENGTH recv_options
      channel_args.
Proof. unfold scanned. by rewrite foldl_recv, <- get_integer_limit. Qed.

(** The constructor, with the loop named. *)
Lemma init_channel_elem_unfold args :
  init_channel_elem args =
    if is_last args then Aborted "!args->is_last"
    else
      match grpc_channel_args_find (channel_args args) GRPC_ARG_SERVICE_CONFIG with
      | Some channel_arg =>
          match arg_value channel_arg with
          | arg_pointer p =>
              Done {| chand_max_send_size :=
                        chand_max_send_size (scanned (channel_args args));
                      chand_max_recv_size :=
                        chand_max_recv_size (scanned (channel_args args));
                      chand_method_limit_table :=
                        Some (grpc_method_config_table_convert p
                                method_config_convert_value) |}
          | _ => Aborted "channel_arg->type == GRPC_ARG_POINTER"
          end
      | None => Done (scanned (channel_args args))
      end.
Proof. unfold init_channel_elem. by destruct (is_last args). Qed.

Lemma init_channel_elem_sizes args chand :
  init_channel_elem args = Done chand →
  chand_max_send_size chand = chand_max_send_size (scanned (channel_args args)) ∧
  chand_max_recv_size chand = chand_max_recv_size (scanned (channel_args args)).
Proof.
  rewrite init_channel_elem_unfold.
  destruct (is_last args); [done|].
  destruct (grpc_channel_args_find _ _) as [channel_arg|].
  - destruct (arg_value channel_arg); try done. by intros [= <-].
  - by intros [= <-].
Qed.

Lemma last_with_key_missing key channel_args :
  Forall (λ arg, arg_key arg ≠ key) channel_args →
  last_with_key key channel_args = None.
Proof.
  intros Hall. unfold last_with_key.
  replace (List.filter (λ arg, String.eqb (arg_key arg) key) channel_args)
    with (@nil grpc_arg); [done|].
  induction Hall as [|arg channel_args Hne _ IH]; [done|]. simpl.
  destruct (String.eqb_spec (arg_key arg) key); done.
Qed.

Lemma last_with_key_size_keys key channel_args :
  is_size_key {| arg_key := key; arg_value := arg_integer 0 |} = true →
  last_with_key key (List.filter is_size_key channel_args) =
    last_with_key key channel_args.
Proof.
  intros Hkey. unfold last_with_key. f_equal.
  induction channel_args as [|arg channel_args IH]; [done|]. simpl.
  destruct (is_size_key arg) eqn:Hsize; simpl;
    destruct (String.eqb_spec (arg_key arg) key) as [Heq|Hne];
    rewrite ?IH; try done.
  exfalso. unfold is_size_key in *. simpl in Hkey. rewrite Heq in Hsize.
  congruence.
Qed.

Lemma find_service_config_size_keys channel_args :
  grpc_channel_args_find (List.filter is_size_key channel_args)
    GRPC_ARG_SERVICE_CONFIG = None.
Proof.
  unfold grpc_channel_args_find.
  induction channel_args as [|arg channel_args IH]; [done|]. simpl.
  destruct (is_size_key arg) eqn:Hsize; [|done]. simpl. rewrite IH.
  unfold is_size_key in Hsize. apply orb_true_iff in Hsize.
  destruct Hsize as [H|H]; apply String.eqb_eq in H; by rewrite H.
Qed.

Lemma clamp_range lo hi z : lo <= hi → lo <= clamp lo hi z <= hi.
Proof. unfold clamp. lia. Qed.

(** ** C6 *)

(** C6: when the channel constructor completes, the send limit of the
    channel is -1, the absent limit, if no argument is stored under
    max_send_message_length, and the receive limit is 4194304 if none is
    stored under max_receive_message_length; a limit taken from a supplied
    integer is that integer clamped to the range from 0 to INT_MAX.  The
    two limits depend on the arguments stored under these two keys and on
    no other: dropping every other argument leaves both as they are. *)
Theorem init_channel_elem_limits (args : grpc_channel_element_args)
    (chand : channel_data) :
  init_channel_elem args = Done chand →
  (Forall (λ arg, arg_key arg ≠ GRPC_ARG_MAX_SEND_MESSAGE_LENGTH)
     (channel_args args) →
   chand_max_send_size chand = -1 ∧
   cap_of_int (chand_max_send_size chand) = None) ∧
  (Forall (λ arg, arg_key arg ≠ GRPC_ARG_MAX_RECEIVE_MESSAGE_LENGTH)
     (channel_args args) →
   chand_max_recv_size chand = 4194304) ∧
  (∀ arg integer,
     last_with_key GRPC_ARG_MAX_SEND_MESSAGE_LENGTH (channel_args args) =
       Some arg →
     arg_value arg = arg_integer integer →
     chand_max_send_size chand = clamp 0 INT_MAX integer ∧
     0 <= chand_max_send_size chand <= INT_MAX) ∧
  (∀ arg integer,
     last_with_key GRPC_ARG_MAX_RECEIVE_MESSAGE_LENGTH (channel_args args) =
       Some arg →
     arg_value arg = arg_integer integer →
     chand_max_recv_size chand = clamp 0 INT_MAX integer ∧
     0 <= chand_max_recv_size chand <= INT_MAX) ∧
  ∃ chand',
    init_channel_elem
      {| channel_args := List.filter is_size_key (channel_args args);
         is_last := is_last args |} = Done chand' ∧
    chand_max_send_size chand' = chand_max_send_size chand ∧
    chand_max_recv_size chand' = chand_max_recv_size chand.
Proof.
  intros Hinit.
  destruct (init_channel_elem_sizes args chand Hinit) as [Hsend Hrecv].
  rewrite scanned_send in Hsend. rewrite scanned_recv in Hrecv.
  unfold limit_from_args in Hsend, Hrecv.
  split; [|split; [|split; [|split]]].
  - intros Hmiss. rewrite (last_with_key_missing _ _ Hmiss) in Hsend.
    rewrite Hsend. done.
  - intros Hmiss. rewrite (last_with_key_missing _ _ Hmiss) in Hrecv.
    rewrite Hrecv. done.
  - intros arg integer Hlast Hval. rewrite Hlast, Hval in Hsend.
    rewrite Hsend. split; [done|]. by apply clamp_range.
  - intros arg integer Hlast Hval. rewrite Hlast, Hval in Hrecv.
    rewrite Hrecv. split; [done|]. by apply clamp_range.
  - rewrite init_channel_elem_unfold in Hinit |- *. cbn [is_last channel_args].
    destruct (is_last args); [done|].
    rewrite find_service_config_size_keys. eexists. split; [done|].
    rewrite scanned_send, scanned_recv. unfold limit_from_args.
    rewrite !last_with_key_size_keys by done.
    by rewrite Hsend, Hrecv.
Qed.

Lemma init_channel_elem_limits_witness :
  init_channel_elem sample_args = Done sample_built_chand ∧
  chand_max_send_size sample_built_chand = clamp 0 INT_MAX 65536 ∧
  chand_max_recv_size sample_built_chand = 4194304.
Proof.
  assert (Hinit : init_channel_elem sample_args = Done sample_built_chand)
    by reflexivity.
  destruct (init_channel_elem_limits sample_args sample_built_chand Hinit)
    as (_ & Hrecv & Hsend & _).
  split; [exact Hinit|]. split.
  - apply (Hsend {| arg_key := GRPC_ARG_MAX_SEND_MESSAGE_LENGTH;
                    arg_value := arg_integer 65536 |} 65536); reflexivity.
  - apply Hrecv. repeat constructor; discriminate.
Defined.

(** ** C7 *)

(** C7, as amended: constructed as the last element of the stack, the
    filter fails its first assertion, before anything else is done and
    whatever the channel arguments are, so no channel data comes to exist
    for a call to be built on.  Constructed in any other position, it
    completes whenever the service config argument, if there is one, holds
    a pointer; a service config argument of another type fails the second
    assertion. *)
Theorem init_channel_elem_position (args : grpc_channel_element_args) :
  if is_last args then
    init_channel_elem args = Aborted "!args->is_last"
  else
    match grpc_channel_args_find (channel_args args) GRPC_ARG_SERVICE_CONFIG with
    | Some channel_arg =>
        match arg_type channel_arg with
        | GRPC_ARG_POINTER => ∃ chand, init_channel_elem args = Done chand
        | _ =>
            init_channel_elem args =
              Aborted "channel_arg->type == GRPC_ARG_POINTER"
        end
    | None => ∃ chand, init_channel_elem args = Done chand
    end.
Proof.
  rewrite init_channel_elem_unfold.
  destruct (is_last args); [done|].
  destruct (grpc_channel_args_find _ _) as [channel_arg|]; [|by eexists].
  unfold arg_type. destruct (arg_value channel_arg); try done. by eexists.
Qed.

(** C7, as stated, fails in its second half: in a position that is not
    the last, with a service config argument that holds an integer, the
    constructor is aborted. *)
Lemma init_channel_elem_not_last_aborted :
  is_last sample_bad_args = false ∧
  init_channel_elem sample_bad_args =
    Aborted "channel_arg->type == GRPC_ARG_POINTER".
Proof. split; reflexivity. Qed.

(** ** C10 *)

Lemma last_with_key_last key before arg after :
  arg_key arg = key →
  Forall (λ a, arg_key a ≠ key) after →
  last_with_key key (before ++ arg :: after) = Some arg.
Proof.
  intros Hkey Hafter. apply last_with_key_missing in Hafter.
  unfold last_with_key in *. rewrite List.filter_app. simpl.
  rewrite Hkey, String.eqb_refl.
  destruct (List.filter _ after) as [|a l] eqn:Hf.
  - by rewrite last_snoc.
  - exfalso. clear Hf. revert a Hafter.
    induction l as [|b l IH]; intros a; simpl; [done|]. apply IH.
Qed.

(** C10: the loop of the channel constructor goes through all the
    arguments in order, and of several arguments stored under
    max_send_message_length (or max_receive_message_length) the last one
    decides: the channel's limit is what [grpc_channel_arg_get_integer]
    yields for it, its integer clamped to the range from 0 to INT_MAX.
    The arguments before it have no effect on that limit: replacing them
    by any others leaves it the same. *)
Theorem init_channel_elem_last_occurrence (args : grpc_channel_element_args)
    (before after : list grpc_arg) (arg : grpc_arg) (chand : channel_data) :
  channel_args args = before ++ arg :: after →
  init_channel_elem args = Done chand →
  (arg_key arg = GRPC_ARG_MAX_SEND_MESSAGE_LENGTH →
   Forall (λ a, arg_key a ≠ GRPC_ARG_MAX_SEND_MESSAGE_LENGTH) after →
   chand_max_send_size chand = grpc_channel_arg_get_integer arg send_options ∧
   (∀ integer, arg_value arg = arg_integer integer →
      chand_max_send_size chand = clamp 0 INT_MAX integer) ∧
   ∀ before' chand',
     init_channel_elem
       {| channel_args := before' ++ arg :: after; is_last := is_last args |} =
       Done chand' →
     chand_max_send_size chand' = chand_max_send_size chand) ∧
  (arg_key arg = GRPC_ARG_MAX_RECEIVE_MESSAGE_LENGTH →
   Forall (λ a, arg_key a ≠ GRPC_ARG_MAX_RECEIVE_MESSAGE_LENGTH) after →
   chand_max_recv_size chand = grpc_channel_arg_get_integer arg recv_options ∧
   (∀ integer, arg_value arg = arg_integer integer →
      chand_max_recv_size chand = clamp 0 INT_MAX integer) ∧
   ∀ before' chand',
     init_channel_elem
       {| channel_args := before' ++ arg :: after; is_last := is_last args |} =
       Done chand' →
     chand_max_recv_size chand' = chand_max_recv_size chand).
Proof.
  intros Hargs Hinit.
  destruct (init_channel_elem_sizes args chand Hinit) as [Hsend Hrecv].
  unfold scanned in Hsend, Hrecv.
  rewrite foldl_send in Hsend. rewrite foldl_recv in Hrecv.
  rewrite Hargs in Hsend, Hrecv.
  split; intros Hkey Hafter.
  - rewrite (last_with_key_last _ before arg after Hkey Hafter) in Hsend.
    split; [done|]. split.
    + intros integer Hval. rewrite Hsend.
      unfold grpc_channel_arg_get_integer. by rewrite Hval.
    + intros before' chand' Hinit'.
      destruct (init_channel_elem_sizes _ chand' Hinit') as [Hsend' _].
      unfold scanned in Hsend'. rewrite foldl_send in Hsend'.
      cbn [channel_args] in Hsend'.
      rewrite (last_with_key_last _ before' arg after Hkey Hafter) in Hsend'.
      congruence.
  - rewrite (last_with_key_last _ before arg after Hkey Hafter) in Hrecv.
    split; [done|]. split.
    + intros integer Hval. rewrite Hrecv.
      unfold grpc_channel_arg_get_integer. by rewrite Hval.
    + intros before' chand' Hinit'.
      destruct (init_channel_elem_sizes _ chand' Hinit') as [_ Hrecv'].
      unfold scanned in Hrecv'. rewrite foldl_recv in Hrecv'.
      cbn [channel_args] in Hrecv'.
      rewrite (last_with_key_last _ before' arg after Hkey Hafter) in Hrecv'.
      congruence.
Qed.

Lemma init_channel_elem_last_occurrence_witness :
  init_channel_elem sample_args = Done sample_built_chand ∧
  chand_max_send_size sample_built_chand = clamp 0 INT_MAX 65536.
Proof.
  assert (Hinit : init_channel_elem sample_args = Done sample_built_chand)
    by reflexivity.
  split; [exact Hinit|].
  destruct (init_channel_elem_last_occurrence sample_args
              (take 4 sample_channel_args) []
              {| arg_key := GRPC_ARG_MAX_SEND_MESSAGE_LENGTH;
                 arg_value := arg_integer 65536 |}
              sample_built_chand eq_refl Hinit) as [Hsend _].
  destruct (Hsend eq_refl (Forall_nil_2 _)) as (_ & Hclamp & _).
  apply Hclamp. reflexivity.
Defined.

(** ** C8 *)

(** C8: the interceptor passes exactly one op to the next filter, and
    that op has the outgoing message, the receive slot and every other
    member of the op it was given; only the receive continuation may
    differ, being the call's own callback when the op registered one, the
    registered one being saved in the call.  An op that registers no
    receive continuation is passed on as it is. *)
Theorem start_transport_stream_op_frame {F} (calld : call_data)
    (op : grpc_transport_stream_op F) :
  ∃ op',
    forwarded (start_transport_stream_op calld op).2 = [op'] ∧
    op_send_message op' = op_send_message op ∧
    op_recv_message op' = op_recv_message op ∧
    op_other_members op' = op_other_members op ∧
    match op_recv_message_ready op with
    | Some next =>
        op_recv_message_ready op' = Some calld_recv_message_ready ∧
        calld_next_recv_message_ready (start_transport_stream_op calld op).1 =
          Some next
    | None => op' = op
    end.
Proof.
  exists (intercepted op).
  rewrite start_transport_stream_op_effects, start_transport_stream_op_next.
  split.
  - unfold forwarded. rewrite omap_app, start_transport_stream_op_closes. simpl.
    destruct (op_send_message op) as [stream|]; [|done].
    by destruct (exceeds _ _).
  - do 3 (split; [done|]).
    destruct (op_recv_message_ready op) eqn:Hready.
    + unfold intercepted. simpl. by rewrite Hready.
    + by apply intercepted_id.
Qed.

(** ** C9 *)

Lemma run_without_start {F} (steps : list (call_step F)) (calld : call_data) :
  Forall starts_no_op steps →
  (run calld steps).1 = calld ∧
  Forall (λ closure, closure = calld_next_recv_message_ready calld)
    (scheduled (run calld steps).2).
Proof.
  intros Hsteps. induction Hsteps as [|s steps Hs _ [IH1 IH2]]; [done|].
  rewrite run_cons. cbn [fst snd]. rewrite scheduled_app.
  destruct s as [op|slots error|]; [done| |]; cbn [call_step_exec fst snd].
  - rewrite recv_message_ready_scheduled. split; [done|].
    by apply Forall_cons.
  - unfold destroy_call_elem. by cbn [fst snd].
Qed.

(** C9: an op that registers a receive continuation makes it the saved
    continuation of the call, whatever was saved before.  From then on,
    as long as no further op is started, every run of the callback
    schedules the newly saved continuation; one saved before and not yet
    scheduled is lost to the filter.  With two receives registered one
    after the other and the callback then run twice, the second
    continuation is scheduled twice and the first not at all. *)
Theorem start_transport_stream_op_overwrites {F} (calld : call_data)
    (op : grpc_transport_stream_op F) (next : grpc_closure_ptr) :
  op_recv_message_ready op = Some next →
  calld_next_recv_message_ready (start_transport_stream_op calld op).1 =
    Some next ∧
  (∀ steps,
     Forall starts_no_op steps →
     Forall (λ closure, closure = Some next)
       (scheduled (run calld (StartOp op :: steps)).2)) ∧
  (∀ earlier slots1 error1 slots2 error2,
     scheduled (run calld [StartOp earlier; StartOp op;
                           RunRecvMessageReady slots1 error1;
                           RunRecvMessageReady slots2 error2]).2 =
       [Some next; Some next]).
Proof.
  intros Hnext.
  assert (Hsaved : ∀ calld0,
    calld_next_recv_message_ready (start_transport_stream_op calld0 op).1 =
      Some next).
  { intros calld0. by rewrite start_transport_stream_op_next, Hnext. }
  split; [done|]. split.
  - intros steps Hsteps. rewrite run_cons. cbn [call_step_exec fst snd].
    rewrite scheduled_app, start_transport_stream_op_scheduled. simpl.
    destruct (run_without_start steps (start_transport_stream_op calld op).1
                Hsteps) as [_ Hall].
    by rewrite Hsaved in Hall.
  - intros earlier slots1 error1 slots2 error2.
    rewrite !run_cons. cbn [run call_step_exec fst snd].
    rewrite !scheduled_app, !start_transport_stream_op_scheduled.
    rewrite !recv_message_ready_scheduled, Hsaved. done.
Qed.

Lemma start_transport_stream_op_overwrites_witness :
  calld_next_recv_message_ready
    (start_transport_stream_op sample_calld sample_op).1 = Some (Closure 9) ∧
  scheduled (run sample_calld
               [StartOp sample_op;
                RunRecvMessageReady sample_slots GRPC_ERROR_NONE;
                DestroyCall]).2 = [Some (Closure 9)].
Proof.
  destruct (start_transport_stream_op_overwrites sample_calld sample_op
              (Closure 9) eq_refl) as (Hsaved & _ & _).
  split; [exact Hsaved | reflexivity].
Defined.

(** ** The scenarios of the specification *)

(** A: 4 MiB in by default, a message of 5 MiB comes in. *)
Example scenario_A :
  delivered (recv_message_ready (F:=unit) sample_slots
               (init_call_elem (scanned []) sample_calld "/svc/Any")
               GRPC_ERROR_NONE) =
    Some (GRPC_ERROR "Received message larger than max (5242880 vs. 4194304)"
            [(GRPC_ERROR_INT_GRPC_STATUS, 3)] []).
Proof. reflexivity. Qed.

(** B: no send limit on the channel, 1024 bytes for "/svc/Big". *)
Example scenario_B :
  closes (start_transport_stream_op
            (init_call_elem sample_chand sample_calld "/svc/Big") sample_op).2 =
    [(GRPC_STATUS_INVALID_ARGUMENT,
      "Sent message larger than max (2048 vs. 1024)")] ∧
  closes (start_transport_stream_op
            (init_call_elem sample_chand sample_calld "/svc/Other") sample_op).2 =
    [].
Proof. split; reflexivity. Qed.

(** C: 1024 bytes in on the channel, a looser 2048 for the method. *)
Example scenario_C :
  calld_max_recv_size (init_call_elem sample_chand sample_calld "/svc/Big") =
    1024.
Proof. reflexivity. Qed.

(** D: the filter as the last element of the stack. *)
Example scenario_D :
  init_channel_elem {| channel_args := sample_channel_args; is_last := true |} =
    Aborted "!args->is_last".
Proof. reflexivity. Qed.

(** * Further properties of the filter *)

(** ** The comparison of limit pairs *)

Lemma message_size_limits_cmp_cases (v1 v2 : message_size_limits) :
  let s1 := limits_max_send_size v1 in
  let s2 := limits_max_send_size v2 in
  let r1 := limits_max_recv_size v1 in
  let r2 := limits_max_recv_size v2 in
  (message_size_limits_cmp v1 v2 = 1 ∧ (s1 > s2 ∨ (s1 = s2 ∧ r1 > r2))) ∨
  (message_size_limits_cmp v1 v2 = -1 ∧ (s1 < s2 ∨ (s1 = s2 ∧ r1 < r2))) ∨
  (message_size_limits_cmp v1 v2 = 0 ∧ s1 = s2 ∧ r1 = r2).
Proof.
  unfold message_size_limits_cmp. rewrite !Z.gtb_ltb.
  destruct (Z.ltb_spec (limits_max_send_size v2) (limits_max_send_size v1));
    [left; lia|].
  destruct (Z.ltb_spec (limits_max_send_size v1) (limits_max_send_size v2));
    [right; left; lia|].
  destruct (Z.ltb_spec (limits_max_recv_size v2) (limits_max_recv_size v1));
    [left; lia|].
  destruct (Z.ltb_spec (limits_max_recv_size v1) (limits_max_recv_size v2));
    [right; left; lia|].
  right; right. lia.
Qed.

(** X1: the comparison of two limit pairs returns 0 exactly when the two
    pairs are the same, so a copy made by the table compares equal to its
    original. *)
Theorem message_size_limits_cmp_zero (v1 v2 : message_size_limits) :
  (message_size_limits_cmp v1 v2 = 0 ↔ v1 = v2) ∧
  message_size_limits_cmp (message_size_limits_copy v1) v1 = 0.
Proof.
  assert (Hiff : ∀ a b, message_size_limits_cmp a b = 0 ↔ a = b).
  { intros a b. pose proof (message_size_limits_cmp_cases a b) as H.
    simpl in H. split.
    - intros H0. destruct a, b. simpl in *.
      destruct H as [[? _]|[[? _]|(_ & -> & ->)]]; [lia|lia|done].
    - intros ->. destruct H as [[_ ?]|[[_ ?]|[? _]]]; [lia|lia|done]. }
  split; [apply Hiff|]. apply Hiff. by destruct v1.
Qed.

(** X2: swapping the arguments of the comparison negates its result. *)
Theorem message_size_limits_cmp_swap (v1 v2 : message_size_limits) :
  message_size_limits_cmp v2 v1 = - message_size_limits_cmp v1 v2.
Proof.
  pose proof (message_size_limits_cmp_cases v1 v2) as H12.
  pose proof (message_size_limits_cmp_cases v2 v1) as H21.
  simpl in *. lia.
Qed.

(** X3: the comparison is transitive: if the first pair is not above the
    second and the second not above the third, the first is not above the
    third. *)
Theorem message_size_limits_cmp_trans (v1 v2 v3 : message_size_limits) :
  message_size_limits_cmp v1 v2 <= 0 →
  message_size_limits_cmp v2 v3 <= 0 →
  message_size_limits_cmp v1 v3 <= 0.
Proof.
  pose proof (message_size_limits_cmp_cases v1 v2) as H12.
  pose proof (message_size_limits_cmp_cases v2 v3) as H23.
  pose proof (message_size_limits_cmp_cases v1 v3) as H13.
  simpl in *. lia.
Qed.

Lemma message_size_limits_cmp_trans_witness :
  message_size_limits_cmp sample_limits_a sample_limits_b = -1 ∧
  message_size_limits_cmp sample_limits_b sample_limits_c = -1 ∧
  message_size_limits_cmp sample_limits_a sample_limits_c <= 0.
Proof.
  split; [reflexivity|]. split; [reflexivity|].
  apply (message_size_limits_cmp_trans sample_limits_a sample_limits_b
           sample_limits_c); vm_compute; discriminate.
Defined.

(** ** Invariants of a call *)

Lemma call_step_exec_limits {F} (calld : call_data) (s : call_step F) :
  calld_max_send_size (call_step_exec calld s).1 = calld_max_send_size calld ∧
  calld_max_recv_size (call_step_exec calld s).1 = calld_max_recv_size calld.
Proof.
  destruct s as [op|slots error|]; [|done|done].
  cbn [call_step_exec]. unfold start_transport_stream_op. cbn [fst].
  by destruct (op_recv_message_ready op).
Qed.

Lemma forwarded_app {F} (es1 es2 : list (effect F)) :
  forwarded (es1 ++ es2) = forwarded es1 ++ forwarded es2.
Proof. apply omap_app. Qed.

Lemma closes_app {F} (es1 es2 : list (effect F)) :
  closes (es1 ++ es2) = closes es1 ++ closes es2.
Proof. apply omap_app. Qed.

Lemma delivered_errors_app {F} (es1 es2 : list (effect F)) :
  delivered_errors (es1 ++ es2) = delivered_errors es1 ++ delivered_errors es2.
Proof. apply omap_app. Qed.

Lemma start_transport_stream_op_forwarded {F} (calld : call_data)
    (op : grpc_transport_stream_op F) :
  forwarded (start_transport_stream_op calld op).2 = [intercepted op].
Proof.
  rewrite start_transport_stream_op_effects, forwarded_app.
  rewrite start_transport_stream_op_closes.
  destruct (op_send_message op) as [stream|]; [|done].
  by destruct (exceeds _ _).
Qed.

Lemma start_transport_stream_op_delivered_errors {F} (calld : call_data)
    (op : grpc_transport_stream_op F) :
  delivered_errors (start_transport_stream_op calld op).2 = [].
Proof.
  rewrite start_transport_stream_op_effects, delivered_errors_app.
  rewrite start_transport_stream_op_closes.
  destruct (op_send_message op) as [stream|]; [|done].
  by destruct (exceeds _ _).
Qed.

Lemma exceeds_negative max_size length :
  max_size < 0 → exceeds max_size length = false.
Proof.
  intros Hneg. unfold exceeds.
  destruct (Z.geb_spec max_size 0); [lia|done].
Qed.

(** X4: the two limits of a call never change after its construction:
    whatever ops are started on it, however often the callback runs, and
    through its destruction, they are the limits it began with. *)
Theorem run_keeps_limits {F} (calld : call_data) (steps : list (call_step F)) :
  calld_max_send_size (run calld steps).1 = calld_max_send_size calld ∧
  calld_max_recv_size (run calld steps).1 = calld_max_recv_size calld.
Proof.
  revert calld. induction steps as [|s steps IH]; intros calld; [done|].
  rewrite run_cons. cbn [fst].
  destruct (IH (call_step_exec calld s).1) as [-> ->].
  apply call_step_exec_limits.
Qed.

(** X5: over the whole life of a call, the ops passed to the next filter
    are the ops started on the call, in the order they were started, each
    once, with nothing but the receive continuation replaced; running the
    callback or destroying the call passes nothing down. *)
Theorem run_forwards_in_order {F} (calld : call_data)
    (steps : list (call_step F)) :
  forwarded (run calld steps).2 = map intercepted (started steps).
Proof.
  revert calld. induction steps as [|s steps IH]; intros calld; [done|].
  rewrite run_cons. cbn [snd]. rewrite forwarded_app, IH.
  destruct s as [op|slots error|]; cbn [call_step_exec snd].
  - by rewrite start_transport_stream_op_forwarded.
  - by rewrite recv_message_ready_delivered.
  - done.
Qed.

(** X6: over the whole life of a call, the filter schedules exactly one
    closure for each run of its callback and none otherwise: starting an
    op or destroying the call schedules nothing. *)
Theorem run_schedules_per_callback {F} (calld : call_data)
    (steps : list (call_step F)) :
  length (scheduled (run calld steps).2) = length (reported steps).
Proof.
  revert calld. induction steps as [|s steps IH]; intros calld; [done|].
  rewrite run_cons. cbn [snd]. rewrite scheduled_app, length_app, IH.
  destruct s as [op|slots error|]; cbn [call_step_exec snd].
  - by rewrite start_transport_stream_op_scheduled.
  - by rewrite recv_message_ready_scheduled.
  - done.
Qed.

(** X7: a call whose send limit is negative, that is, without a send
    limit, never asks for the call to be closed, whatever is started on
    it and however long the messages are. *)
Theorem unlimited_send_never_closes {F} (calld : call_data)
    (steps : list (call_step F)) :
  calld_max_send_size calld < 0 →
  closes (run calld steps).2 = [].
Proof.
  intros Hneg. revert calld Hneg.
  induction steps as [|s steps IH]; intros calld Hneg; [done|].
  rewrite run_cons. cbn [snd]. rewrite closes_app, IH.
  - rewrite app_nil_r.
    destruct s as [op|slots error|]; cbn [call_step_exec snd].
    + rewrite start_transport_stream_op_closes.
      destruct (op_send_message op) as [stream|]; [|done].
      by rewrite exceeds_negative.
    + by rewrite recv_message_ready_delivered.
    + done.
  - destruct (call_step_exec_limits calld s) as [-> _]. done.
Qed.

Lemma unlimited_send_never_closes_witness :
  calld_max_send_size sample_unlimited_calld = -1 ∧
  closes (run sample_unlimited_calld
            [StartOp sample_op;
             RunRecvMessageReady sample_slots GRPC_ERROR_NONE]).2 = [].
Proof.
  split; [reflexivity|].
  apply (unlimited_send_never_closes sample_unlimited_calld). simpl. lia.
Defined.

(** X8: a call whose receive limit is negative, that is, without a
    receive limit, hands every error of the transport, or its success, to
    the saved continuation as it came: the errors delivered over the life
    of the call are those the transport reported, in order, whatever the
    messages received. *)
Theorem unlimited_recv_passes_errors {F} (calld : call_data)
    (steps : list (call_step F)) :
  calld_max_recv_size calld < 0 →
  delivered_errors (run calld steps).2 = reported steps.
Proof.
  intros Hneg. revert calld Hneg.
  induction steps as [|s steps IH]; intros calld Hneg; [done|].
  rewrite run_cons. cbn [snd]. rewrite delivered_errors_app, IH.
  - destruct s as [op|slots error|]; cbn [call_step_exec snd].
    + by rewrite start_transport_stream_op_delivered_errors.
    + rewrite recv_message_ready_delivered.
      destruct (slots !! _) as [stream|]; [|done].
      by rewrite exceeds_negative.
    + done.
  - destruct (call_step_exec_limits calld s) as [_ ->]. done.
Qed.

Lemma unlimited_recv_passes_errors_witness :
  calld_max_recv_size sample_unlimited_calld = -1 ∧
  delivered_errors (run sample_unlimited_calld
                      [StartOp sample_op;
                       RunRecvMessageReady sample_slots GRPC_ERROR_NONE;
                       RunRecvMessageReady sample_slots
                         (GRPC_ERROR "Cancelled" [] [])]).2 =
    [GRPC_ERROR_NONE; GRPC_ERROR "Cancelled" [] []].
Proof.
  split; [reflexivity|].
  apply (unlimited_recv_passes_errors sample_unlimited_calld). simpl. lia.
Defined.

(** ** Method configs and the limits of a call *)

(** X9: a size that the method config leaves out, or sets to a negative
    number, does not touch the call's limit for that direction, which
    stays the channel's; a size of zero or more replaces the channel's
    limit when the channel has none or a larger one.  The request size
    bears on the send limit and the response size on the receive limit. *)
Theorem method_config_limits (chand : channel_data) (calld : call_data)
    (path : string) (method_config : grpc_method_config) :
  method_limits chand path = Some (method_config_convert_value method_config) →
  let calld' := init_call_elem chand calld path in
  match grpc_method_config_get_max_request_message_bytes method_config with
  | Some bytes =>
      calld_max_send_size calld' =
        if bytes <? 0 then chand_max_send_size chand
        else if chand_max_send_size chand <? 0 then bytes
        else Z.min bytes (chand_max_send_size chand)
  | None => calld_max_send_size calld' = chand_max_send_size chand
  end ∧
  match grpc_method_config_get_max_response_message_bytes method_config with
  | Some bytes =>
      calld_max_recv_size calld' =
        if bytes <? 0 then chand_max_recv_size chand
        else if chand_max_recv_size chand <? 0 then bytes
        else Z.min bytes (chand_max_recv_size chand)
  | None => calld_max_recv_size calld' = chand_max_recv_size chand
  end.
Proof.
  intros Hlimits calld'. subst calld'.
  rewrite init_call_elem_unfold, Hlimits.
  unfold method_config_convert_value. cbn.
  split.
  - destruct (grpc_method_config_get_max_request_message_bytes method_config)
      as [bytes|]; cbn.
    + rewrite Z.geb_leb.
      destruct (Z.leb_spec 0 bytes), (Z.ltb_spec bytes 0),
        (Z.ltb_spec bytes (chand_max_send_size chand)),
        (Z.ltb_spec (chand_max_send_size chand) 0); simpl; lia.
    + by destruct (chand_max_send_size chand <? 0),
        (-1 <? chand_max_send_size chand).
  - destruct (grpc_method_config_get_max_response_message_bytes method_config)
      as [bytes|]; cbn.
    + rewrite Z.geb_leb.
      destruct (Z.leb_spec 0 bytes), (Z.ltb_spec bytes 0),
        (Z.ltb_spec bytes (chand_max_recv_size chand)),
        (Z.ltb_spec (chand_max_recv_size chand) 0); simpl; lia.
    + by destruct (chand_max_recv_size chand <? 0),
        (-1 <? chand_max_recv_size chand).
Qed.

Lemma method_config_limits_witness :
  calld_max_send_size (init_call_elem sample_negative_chand sample_calld
                         "/svc/Odd") = 4096 ∧
  calld_max_recv_size (init_call_elem sample_negative_chand sample_calld
                         "/svc/Odd") = 4194304.
Proof.
  exact (method_config_limits sample_negative_chand sample_calld "/svc/Odd"
           sample_negative_config eq_refl).
Defined.

(** X10: a send whose message is longer than the channel's send limit is
    rejected on every call of the channel, whatever the method config
    holds for the call's path; the limit named in the message is the
    call's, which is not negative and not above the channel's. *)
Theorem over_channel_limit_rejected {F} (chand : channel_data)
    (calld : call_data) (path : string) (op : grpc_transport_stream_op F)
    (stream : grpc_byte_stream) :
  int_range (chand_max_send_size chand) →
  op_send_message op = Some stream →
  0 <= chand_max_send_size chand →
  Z.of_N (bs_length stream) > chand_max_send_size chand →
  let calld' := init_call_elem chand calld path in
  0 <= calld_max_send_size calld' <= chand_max_send_size chand ∧
  closes (start_transport_stream_op calld' op).2 =
    [(GRPC_STATUS_INVALID_ARGUMENT,
      sent_message_string (bs_length stream) (calld_max_send_size calld'))].
Proof.
  intros Hr Hsend H0 HL calld'.
  assert (Hle : 0 <= calld_max_send_size calld' <= chand_max_send_size chand).
  { subst calld'. rewrite init_call_elem_unfold.
    destruct (method_limits chand path) as [limits|]; cbn; [|lia].
    rewrite Z.geb_leb.
    destruct (Z.leb_spec 0 (limits_max_send_size limits)),
      (Z.ltb_spec (limits_max_send_size limits) (chand_max_send_size chand)),
      (Z.ltb_spec (chand_max_send_size chand) 0); simpl; lia. }
  split; [done|].
  rewrite start_transport_stream_op_closes, Hsend.
  assert (exceeds (calld_max_send_size calld') (bs_length stream) = true)
    as ->; [|done].
  apply exceeds_true; [|lia].
  unfold int_range in *. unfold INT_MIN in *. lia.
Qed.

Lemma over_channel_limit_rejected_witness :
  closes (start_transport_stream_op
            (init_call_elem sample_negative_chand sample_calld "/svc/Any")
            sample_long_op).2 =
    [(GRPC_STATUS_INVALID_ARGUMENT,
      "Sent message larger than max (5000 vs. 4096)")].
Proof.
  refine (proj2 (over_channel_limit_rejected sample_negative_chand sample_calld
                   "/svc/Any" sample_long_op {| bs_length := 5000 |}
                   _ eq_refl _ _)).
  - int_range_literal.
  - simpl. lia.
  - simpl. lia.
Defined.






(** ** Channel arguments the filter does not read *)

Lemma init_channel_elem_arg_other chand arg :
  is_filter_key arg = false → init_channel_elem_arg chand arg = chand.
Proof.
  unfold is_filter_key, is_size_key, init_channel_elem_arg.
  intros Hkey. apply orb_false_iff in Hkey as [Hsize _].
  apply orb_false_iff in Hsize as [-> ->]. done.
Qed.

Lemma scanned_other_keys channel_args :
  Forall (λ arg, is_filter_key arg = false) channel_args →
  scanned channel_args =
    {| chand_max_send_size := DEFAULT_MAX_SEND_MESSAGE_LENGTH;
       chand_max_recv_size := DEFAULT_MAX_RECV_MESSAGE_LENGTH;
       chand_method_limit_table := None |}.
Proof.
  unfold scanned. generalize
    {| chand_max_send_size := DEFAULT_MAX_SEND_MESSAGE_LENGTH;
       chand_max_recv_size := DEFAULT_MAX_RECV_MESSAGE_LENGTH;
       chand_method_limit_table := None |}.
  intros chand Hall. induction Hall as [|arg channel_args Harg _ IH]; [done|].
  simpl. by rewrite init_channel_elem_arg_other.
Qed.

Lemma find_other_keys channel_args :
  Forall (λ arg, is_filter_key arg = false) channel_args →
  grpc_channel_args_find channel_args GRPC_ARG_SERVICE_CONFIG = None.
Proof.
  unfold grpc_channel_args_find.
  induction 1 as [|arg channel_args Harg _ IH]; [done|]. simpl.
  unfold is_filter_key in Harg. apply orb_false_iff in Harg as [_ ->]. done.
Qed.

(** X12: channel arguments stored under keys other than the two size
    keys and the service config key are of no concern to the filter: with
    such arguments only, or with none, the constructor in a position that
    is not the last completes with no send limit, a receive limit of
    4194304 bytes and no table of method limits. *)
Theorem init_channel_elem_other_keys (args : grpc_channel_element_args) :
  is_last args = false →
  Forall (λ arg, is_filter_key arg = false) (channel_args args) →
  init_channel_elem args =
    Done {| chand_max_send_size := -1;
            chand_max_recv_size := 4194304;
            chand_method_limit_table := None |}.
Proof.
  intros Hlast Hall. rewrite init_channel_elem_unfold, Hlast.
  by rewrite find_other_keys, scanned_other_keys.
Qed.

Lemma init_channel_elem_other_keys_witness :
  init_channel_elem sample_other_args =
    Done {| chand_max_send_size := -1;
            chand_max_recv_size := 4194304;
            chand_method_limit_table := None |}.
Proof.
  apply init_channel_elem_other_keys; [reflexivity|].
  repeat constructor.
Defined.




(** ** From the registration of a receive to its completion *)



(** X15: an op that comes to the interceptor already carrying the call's
    own callback as its receive continuation, as an op does that has
    passed the interceptor once, makes the callback its own successor:
    the saved continuation is then the callback itself, and each run of
    the callback schedules the callback again. *)
Theorem resubmitted_op_schedules_callback {F} (calld : call_data)
    (op : grpc_transport_stream_op F) (next : grpc_closure_ptr)
    (slots : gmap byte_stream_slot grpc_byte_stream) (error : grpc_error) :
  op_recv_message_ready op = Some next →
  calld_next_recv_message_ready
    (run calld [StartOp op; StartOp (intercepted op)]).1 =
    Some calld_recv_message_ready ∧
  scheduled (run calld [StartOp op; StartOp (intercepted op);
                        RunRecvMessageReady slots error]).2 =
    [Some calld_recv_message_ready].
Proof.
  intros Hnext.
  assert (Hself : ∀ calld0,
    calld_next_recv_message_ready
      (start_transport_stream_op calld0 (intercepted op)).1 =
      Some calld_recv_message_ready).
  { intros calld0. rewrite start_transport_stream_op_next.
    unfold intercepted. cbn. by rewrite Hnext. }
  rewrite !run_cons. cbn [run call_step_exec fst snd]. split; [apply Hself|].
  rewrite !scheduled_app, !start_transport_stream_op_scheduled.
  by rewrite recv_message_ready_scheduled, Hself.
Qed.

Lemma resubmitted_op_schedules_callback_witness :
  scheduled (run sample_calld
               [StartOp sample_op; StartOp (intercepted sample_op);
                RunRecvMessageReady sample_slots GRPC_ERROR_NONE]).2 =
    [Some calld_recv_message_ready].
Proof.
  exact (proj2 (resubmitted_op_schedules_callback sample_calld sample_op
                  (Closure 9) sample_slots GRPC_ERROR_NONE eq_refl)).
Defined.
